(** * split.h: Perl-like [split] and [join] over character sequences

    A shallow embedding of [src/split.h] (namespace [org::ppires]) and the
    properties of its natural-language specification.

    Conventions of the embedding:
    - a [std::basic_string_view<char_t>] or [std::basic_string<char_t>] is a
      [list char_t]; the code is a template over [char_t], so the
      development is a section over an arbitrary character type with
      decidable equality;
    - a [size_t] is a [Z] in [0, 2^64); every addition and subtraction the
      code performs on [size_t] is written with [size_t.wrap];
    - [std::vector<string>] is a [list (list char_t)], [emplace_back] appends
      at the end;
    - the [do ... while] loops take a fuel argument; the overloads run them
      with one unit of fuel per character of the source plus one, which is
      shown to be enough. *)

From Stdlib Require Import ZArith Lia String Ascii.
From stdpp Require Import base decidable option list strings.

Local Open Scope Z_scope.

(** ** Machine integers *)

Module size_t.
Definition modulus : Z := 2 ^ 64.
(** [std::numeric_limits<size_t>::max()] *)
Definition max : Z := modulus - 1.
Definition wrap (z : Z) : Z := z mod modulus.
Definition in_range (z : Z) : Prop := 0 <= z <= max.
End size_t.

(** [constexpr size_t split_max] (line 42). *)
Definition split_max : Z := size_t.max.

(** [std::basic_string_view::npos], that is [size_type(-1)]. *)
Definition npos : Z := size_t.max.

(** ** Outcomes of a call *)

Inductive outcome (A : Type) : Type :=
| Returns (x : A)
    (** normal return *)
| Throws_out_of_range
    (** [std::out_of_range], thrown by [substr] when [pos > size()] *)
| Undefined
    (** an iterator was moved past [cend()] and dereferenced or compared *)
| Out_of_fuel.
    (** the model ran out of fuel: says nothing about the code *)

Arguments Returns {A} x.
Arguments Throws_out_of_range {A}.
Arguments Undefined {A}.
Arguments Out_of_fuel {A}.

Definition returns {A} (o : outcome A) : Prop := ∃ x, o = Returns x.

(** ** [std::basic_string_view] *)

Section string_view.
Context {char_t : Type} `{EqDecision char_t}.

Definition sv_length (s : list char_t) : Z := Z.of_nat (length s).

(** Offset of the first [c] in [s]. *)
Fixpoint index_of (c : char_t) (s : list char_t) : option nat :=
  match s with
  | [] => None
  | x :: s' => if decide (x = c) then Some 0%nat else S <$> index_of c s'
  end.

Fixpoint starts_with (needle s : list char_t) : bool :=
  match needle, s with
  | [], _ => true
  | _ :: _, [] => false
  | x :: needle', y :: s' => bool_decide (x = y) && starts_with needle' s'
  end.

(** Offset of the first occurrence of [needle] in [s]; the empty needle
    occurs at offset 0 of every string, the empty one included. *)
Fixpoint search (needle s : list char_t) : option nat :=
  if starts_with needle s then Some 0%nat
  else match s with
       | [] => None
       | _ :: s' => S <$> search needle s'
       end.

(** [str.find(c, pos)]: the lowest [xpos >= pos] with [xpos < size()] and
    [str[xpos] == c], or [npos]. *)
Definition find_char (str : list char_t) (c : char_t) (pos : Z) : Z :=
  if pos <? sv_length str then
    match index_of c (drop (Z.to_nat pos) str) with
    | Some i => pos + Z.of_nat i
    | None => npos
    end
  else npos.

(** [str.find(sep, pos)] for a string view [sep]: the lowest [xpos >= pos]
    with [xpos + sep.size() <= size()] at which [sep] occurs, or [npos]. *)
Definition find (str sep : list char_t) (pos : Z) : Z :=
  if pos <=? sv_length str then
    match search sep (drop (Z.to_nat pos) str) with
    | Some i => pos + Z.of_nat i
    | None => npos
    end
  else npos.

(** [str.substr(pos, n)], which is what the constructor
    [basic_string(str, pos, n, alloc)] copies: throws when
    [pos > size()], else the [min(n, size() - pos)] characters at [pos]. *)
Definition substr (str : list char_t) (pos n : Z) : option (list char_t) :=
  if sv_length str <? pos then None
  else Some (take (Z.to_nat (Z.min n (sv_length str - pos)))
                  (drop (Z.to_nat pos) str)).

(** [basic_string(a, b, alloc)] on iterators [a], [b] of [str], as offsets
    from [str.cbegin()]. *)
Definition range (str : list char_t) (a b : Z) : list char_t :=
  take (Z.to_nat (b - a)) (drop (Z.to_nat a) str).
End string_view.

(** ** [basic_join] and [join] (lines 612-979) *)

Section join.
Context {char_t elem_t joiner_t last_joiner_t : Type}.
(** [output << x] for an element, a joiner and a last joiner. *)
Variable text : elem_t → list char_t.
Variable joiner_text : joiner_t → list char_t.
Variable last_joiner_text : last_joiner_t → list char_t.

(** The loop of lines 628-631 on a range that can be read again, as the
    ranges [std::begin(cont)], [std::end(cont)] of the container overloads
    are: there a copy of an iterator advances on its own, [second] equals
    [first] whenever the loop condition [++second != last] is evaluated,
    and it is the range from [first] to [last] that is inspected.  The
    template itself, on any iterator type, is [basic_join_range] below,
    which is shown to agree with this one on such ranges. *)
Fixpoint basic_join_loop (joiner : joiner_t) (last_joiner : last_joiner_t)
    (first : list elem_t) : list char_t :=
  match first with
  | [] => []
  | x :: second =>
      match second with
      | [] => last_joiner_text last_joiner ++ text x
      | _ :: _ =>
          joiner_text joiner ++ text x
            ++ basic_join_loop joiner last_joiner second
      end
  end.

Definition basic_join (range : list elem_t) (joiner : joiner_t)
    (last_joiner : last_joiner_t) : list char_t :=
  match range with
  | [] => []
  | x :: first =>
      text x ++
      match first with
      | [] => []
      | _ :: _ => basic_join_loop joiner last_joiner first
      end
  end.
End join.

(** The [join] overloads forward to [basic_join]; those taking one joiner
    pass it twice.  On containers of strings joined by strings all three
    [operator<<] are the identity. *)
Definition join {char_t} (cont : list (list char_t))
    (joiner last_joiner : list char_t) : list char_t :=
  basic_join id id id cont joiner last_joiner.

Definition join1 {char_t} (cont : list (list char_t))
    (joiner : list char_t) : list char_t :=
  basic_join id id id cont joiner joiner.

(** [join(cont, char joiner)] (lines 732-765): the joiner is one character,
    written by [output << joiner]. *)
Definition join_char {char_t} (cont : list (list char_t)) (joiner : char_t)
    : list char_t :=
  basic_join id (λ c, [c]) (λ c, [c]) cont joiner joiner.

(** ** [basic_join] on an iterator range (lines 613-635)

    [basic_join] is a template over [input_iter_t]; it copies iterators,
    dereferences them, increments them and compares them with [last].  An
    iterator type is given by what all copies of an iterator share and
    what each copy has of its own. *)

Record iterator_model (elem_t : Type) : Type := {
  (** shared by the copies: nothing for a container, the stream for
      [std::istream_iterator] *)
  it_shared : Type;
  (** proper to each copy *)
  it_own : Type;
  (** [*it]; [None] when [it] is not dereferenceable *)
  it_deref : it_own → option elem_t;
  (** [++it] *)
  it_next : it_shared → it_own → it_shared * it_own;
  (** [it == last], for the end iterator [last] of the range *)
  it_is_last : it_own → bool
}.

Arguments it_shared {elem_t} _.
Arguments it_own {elem_t} _.
Arguments it_deref {elem_t} _ _.
Arguments it_next {elem_t} _ _ _.
Arguments it_is_last {elem_t} _ _.

(** Iterators of a container: an iterator is the range from its position
    to [end()]; copies are independent. *)
Definition container_iterator (elem_t : Type) : iterator_model elem_t :=
  {| it_shared := unit;
     it_own := list elem_t;
     it_deref := head;
     it_next := λ _ it, (tt, tail it);
     it_is_last := λ it, match it with [] => true | _ :: _ => false end |}.

(** [std::istream_iterator<T>]: each copy holds the value it read last
    ([None] for the end-of-stream iterator), all copies read from the one
    stream, here the values still to be read; [++it] reads the next value
    and turns [it] into the end-of-stream iterator when there is none. *)
Definition istream_iterator (elem_t : Type) : iterator_model elem_t :=
  {| it_shared := list elem_t;
     it_own := option elem_t;
     it_deref := λ it, it;
     it_next := λ stream _,
       match stream with
       | [] => ([], None)
       | x :: stream => (stream, Some x)
       end;
     it_is_last := λ it, match it with None => true | Some _ => false end |}.

(** [std::istream_iterator<T>(in)]: the constructor reads the first
    value. *)
Definition istream_begin {elem_t} (stream : list elem_t)
    : list elem_t * option elem_t :=
  it_next (istream_iterator elem_t) stream None.

Section basic_join_range.
Context {char_t elem_t joiner_t last_joiner_t : Type}.
Variable text : elem_t → list char_t.
Variable joiner_text : joiner_t → list char_t.
Variable last_joiner_text : last_joiner_t → list char_t.
Variable I : iterator_model elem_t.

(** Lines 629-631, entered with [second] a copy of [first]:
    [while(++second != last) output << joiner << *first++;] then
    [output << last_joiner << *first;].  One unit of fuel per evaluation
    of the loop condition. *)
Fixpoint basic_join_while (fuel : nat) (shared : it_shared I)
    (first second : it_own I) (output : list char_t)
    (joiner : joiner_t) (last_joiner : last_joiner_t)
    : outcome (list char_t) :=
  match fuel with
  | O => Out_of_fuel
  | S fuel =>
      let '(shared, second) := it_next I shared second in
      if it_is_last I second then
        match it_deref I first with
        | None => Undefined
        | Some x => Returns (output ++ last_joiner_text last_joiner ++ text x)
        end
      else
        match it_deref I first with
        | None => Undefined
        | Some x =>
            let '(shared, first) := it_next I shared first in
            basic_join_while fuel shared first second
              (output ++ joiner_text joiner ++ text x) joiner last_joiner
        end
  end.

(** Lines 625-634. *)
Definition basic_join_range (fuel : nat) (shared : it_shared I)
    (first : it_own I) (joiner : joiner_t) (last_joiner : last_joiner_t)
    : outcome (list char_t) :=
  if it_is_last I first then Returns []
  else
    match it_deref I first with
    | None => Undefined
    | Some x =>
        let output := text x in
        let '(shared, first) := it_next I shared first in
        if it_is_last I first then Returns output
        else
          basic_join_while fuel shared first first output joiner last_joiner
    end.
End basic_join_range.

(** [join(first, last, joiner, last_joiner)] (lines 965-979) on the range
    of [std::istream_iterator<std::string>(in)] and the end-of-stream
    iterator, [in] holding the words [stream]. *)
Definition join_istream {char_t} (fuel : nat) (stream : list (list char_t))
    (joiner last_joiner : list char_t) : outcome (list char_t) :=
  let '(shared, first) := istream_begin stream in
  basic_join_range id id id (istream_iterator (list char_t)) fuel shared
    first joiner last_joiner.

(** Text between quotes as a sequence of [char]. *)
Definition chars (s : string) : list ascii := list_ascii_of_string s.

(** ** [std::basic_regex] and [regex_search]

    The pattern engine is the standard library's, not this repository's.
    A compiled pattern is taken as what [regex_search(a, str.end(), sep,
    sep_re)] computes from the characters between [a] and the end of the
    source: nothing when there is no match, else [sep.position(0)] and
    [sep.length(0)] of the leftmost match, which lies inside that range. *)

Record basic_regex (char_t : Type) : Type := {
  regex_search : list char_t → option (nat * nat);
  regex_search_fits : ∀ s p l,
    regex_search s = Some (p, l) → (p + l ≤ length s)%nat
}.

Arguments regex_search {char_t} _ _.
Arguments regex_search_fits {char_t} _ _ _ _ _.

(** ** The [split] overloads on string views (lines 46-192) *)

Section split.
Context {char_t : Type} `{EqDecision char_t}.

Local Abbreviation str_t := (list char_t).
Local Abbreviation fields_t := (list (list char_t)).

(** [result.size()] *)
Definition size (result : fields_t) : Z := Z.of_nat (length result).

(** [for(; trailing_empty; --trailing_empty) result.emplace_back();] *)
Definition flush (trailing_empty : Z) (result : fields_t) : fields_t :=
  result ++ replicate (Z.to_nat trailing_empty) [].

(** One unit of fuel per loop iteration; the scan position takes each
    value in [0, str_len] at most once. *)
Definition fuel_for (str : str_t) : nat := S (length str).

(** *** Character separator (lines 52-85) *)

(** Lines 63-67; [max_fields] is the decremented value. *)
Fixpoint split_char_bounded (fuel : nat) (str : str_t) (sep : char_t)
    (max_fields a : Z) (result : fields_t) : outcome fields_t :=
  match fuel with
  | O => Out_of_fuel
  | S fuel =>
      let b := if size result >=? max_fields then npos
               else find_char str sep a in
      match substr str a (size_t.wrap (b - a)) with
      | None => Throws_out_of_range
      | Some field =>
          let result := result ++ [field] in
          let a := size_t.wrap (b + 1) in
          if negb (b =? npos) && (a <=? sv_length str)
          then split_char_bounded fuel str sep max_fields a result
          else Returns result
      end
  end.

(** Lines 70-81. *)
Fixpoint split_char_unbounded (fuel : nat) (str : str_t) (sep : char_t)
    (a trailing_empty : Z) (result : fields_t) : outcome fields_t :=
  match fuel with
  | O => Out_of_fuel
  | S fuel =>
      let b := find_char str sep a in
      let a' := size_t.wrap (b + 1) in
      let continue := negb (b =? npos) && (a' <? sv_length str) in
      if b =? a then
        let trailing_empty := size_t.wrap (trailing_empty + 1) in
        if continue
        then split_char_unbounded fuel str sep a' trailing_empty result
        else Returns result
      else
        match substr str a (size_t.wrap (b - a)) with
        | None => Throws_out_of_range
        | Some field =>
            let result := flush trailing_empty result ++ [field] in
            if continue
            then split_char_unbounded fuel str sep a' 0 result
            else Returns result
        end
  end.

Definition split_char (str : str_t) (sep : char_t) (max_fields : Z)
    : outcome fields_t :=
  let str_len := sv_length str in
  if str_len =? 0 then Returns []
  else if negb (max_fields =? 0) then
    split_char_bounded (fuel_for str) str sep
      (size_t.wrap (max_fields - 1)) 0 []
  else split_char_unbounded (fuel_for str) str sep 0 0 [].

(** *** Literal separator (lines 93-129) *)

(** Lines 107-111. *)
Fixpoint split_sv_bounded (fuel : nat) (str sep : str_t)
    (sep_len empty_sep max_fields a : Z) (result : fields_t)
    : outcome fields_t :=
  match fuel with
  | O => Out_of_fuel
  | S fuel =>
      let b := if size result >=? max_fields then npos
               else size_t.wrap (find str sep a + empty_sep) in
      match substr str a (size_t.wrap (b - a)) with
      | None => Throws_out_of_range
      | Some field =>
          let result := result ++ [field] in
          let a := size_t.wrap (b + sep_len) in
          if negb (b =? npos) && (a <=? sv_length str)
          then split_sv_bounded fuel str sep sep_len empty_sep max_fields
                 a result
          else Returns result
      end
  end.

(** Lines 114-125. *)
Fixpoint split_sv_unbounded (fuel : nat) (str sep : str_t)
    (sep_len empty_sep a trailing_empty : Z) (result : fields_t)
    : outcome fields_t :=
  match fuel with
  | O => Out_of_fuel
  | S fuel =>
      let b := size_t.wrap (find str sep a + empty_sep) in
      let a' := size_t.wrap (b + sep_len) in
      let continue := negb (b =? npos) && (a' <? sv_length str) in
      if b =? a then
        let trailing_empty := size_t.wrap (trailing_empty + 1) in
        if continue
        then split_sv_unbounded fuel str sep sep_len empty_sep a'
               trailing_empty result
        else Returns result
      else
        match substr str a (size_t.wrap (b - a)) with
        | None => Throws_out_of_range
        | Some field =>
            let result := flush trailing_empty result ++ [field] in
            if continue
            then split_sv_unbounded fuel str sep sep_len empty_sep a' 0
                   result
            else Returns result
        end
  end.

Definition split_sv (str sep : str_t) (max_fields : Z)
    : outcome fields_t :=
  let str_len := sv_length str in
  if str_len =? 0 then Returns []
  else
    let sep_len := sv_length sep in
    let empty_sep := if sep_len =? 0 then 1 else 0 in
    if negb (max_fields =? 0) then
      split_sv_bounded (fuel_for str) str sep sep_len empty_sep
        (size_t.wrap (max_fields - 1)) 0 []
    else split_sv_unbounded (fuel_for str) str sep sep_len empty_sep 0 0 [].

(** *** Pattern separator (lines 138-192)

    The iterators [a] and [b] are offsets from [str.cbegin()]; [cend] is
    [str_len].  Building a field from a range that ends after [cend] reads
    outside the view: the model stops there with [Undefined]. *)

(** Lines 153-162 and 172-179: the cut [b] and [sep_len]. *)
Definition regex_cut (str : str_t) (sep_re : basic_regex char_t)
    (search_allowed : bool) (a : Z) : Z * Z :=
  if search_allowed then
    match regex_search sep_re (drop (Z.to_nat a) str) with
    | Some (position, length) =>
        let sep_len := Z.of_nat length in
        (a + Z.of_nat position + (if sep_len =? 0 then 1 else 0), sep_len)
    | None => (sv_length str, 0)
    end
  else (sv_length str, 0).

(** Lines 152-165; returns the last [b] with the fields. *)
Fixpoint split_regex_bounded (fuel : nat) (str : str_t)
    (sep_re : basic_regex char_t) (max_fields a : Z) (result : fields_t)
    : outcome (Z * fields_t) :=
  match fuel with
  | O => Out_of_fuel
  | S fuel =>
      let '(b, sep_len) :=
        regex_cut str sep_re (size result <? max_fields) a in
      if sv_length str <? b then Undefined
      else
        let result := result ++ [range str a b] in
        let a := b + sep_len in
        if negb (a =? sv_length str)
        then split_regex_bounded fuel str sep_re max_fields a result
        else Returns (b, result)
  end.

(** Lines 171-188. *)
Fixpoint split_regex_unbounded (fuel : nat) (str : str_t)
    (sep_re : basic_regex char_t) (a trailing_empty : Z)
    (result : fields_t) : outcome fields_t :=
  match fuel with
  | O => Out_of_fuel
  | S fuel =>
      let '(b, sep_len) := regex_cut str sep_re true a in
      let a' := b + sep_len in
      let continue := negb (a' =? sv_length str) in
      if b =? a then
        let trailing_empty := size_t.wrap (trailing_empty + 1) in
        if continue
        then split_regex_unbounded fuel str sep_re a' trailing_empty result
        else Returns result
      else if sv_length str <? b then Undefined
      else
        let result := flush trailing_empty result ++ [range str a b] in
        if continue
        then split_regex_unbounded fuel str sep_re a' 0 result
        else Returns result
  end.

Definition split_regex (str : str_t) (sep_re : basic_regex char_t)
    (max_fields : Z) : outcome fields_t :=
  let str_len := sv_length str in
  if str_len =? 0 then Returns []
  else if negb (max_fields =? 0) then
    let max_fields := size_t.wrap (max_fields - 1) in
    match split_regex_bounded (fuel_for str) str sep_re max_fields 0 [] with
    | Returns (b, result) =>
        (* lines 166-167 *)
        if negb (b =? str_len) && (size result <? max_fields)
        then Returns (result ++ [[]])
        else Returns result
    | Throws_out_of_range => Throws_out_of_range
    | Undefined => Undefined
    | Out_of_fuel => Out_of_fuel
    end
  else split_regex_unbounded (fuel_for str) str sep_re 0 0 [].

(** *** No explicit separator (lines 200-302): the pattern [\s+], whose
    compiled form [sep_re] is the argument [whitespace]. *)
Definition split_default (whitespace : basic_regex char_t) (str : str_t)
    (max_fields : Z) : outcome fields_t :=
  split_regex str whitespace max_fields.
End split.

(** ** Compiled patterns used in the examples *)

(** [std::regex] compiled from one ordinary character [c]: the leftmost
    match is the first [c], of length 1. *)
Definition regex_of_char {char_t} `{EqDecision char_t} (c : char_t)
    : basic_regex char_t :=
  {| regex_search s := (λ i, (i, 1%nat)) <$> index_of c s;
     regex_search_fits := ltac:(
       intros s; induction s as [|x s IH]; intros p l; simpl;
       [ discriminate
       | destruct (decide (x = c)); simpl;
         [ intros [= <- <-]; lia
         | destruct (index_of c s) as [i|] eqn:E; simpl;
           [ intros [= <- <-]; specialize (IH i 1%nat eq_refl); lia
           | discriminate ] ] ]) |}.

(** [std::regex("$")]: the only match is the empty span at the end of the
    searched range. *)
Definition regex_end_of_input {char_t} : basic_regex char_t :=
  {| regex_search s := Some (length s, 0%nat);
     regex_search_fits := ltac:(intros s p l [= <- <-]; lia) |}.

(** Offset of the first character of [s] that satisfies [p]. *)
Fixpoint find_if {char_t} (p : char_t → bool) (s : list char_t)
    : option nat :=
  match s with
  | [] => None
  | x :: s' => if p x then Some 0%nat else S <$> find_if p s'
  end.

(** Length of the longest prefix of [s] whose characters satisfy [p]. *)
Fixpoint run_length {char_t} (p : char_t → bool) (s : list char_t) : nat :=
  match s with
  | [] => 0
  | x :: s' => if p x then S (run_length p s') else 0
  end.

(** The default separator of lines 206, 239, 254, 269, 284 and 300, the
    pattern [\s+]: the leftmost match starts at the first whitespace
    character and, [+] being greedy, extends over the whole run of
    whitespace that starts there.  [isspace] is the character
    classification of the pattern's locale. *)
Definition regex_whitespace {char_t} (isspace : char_t → bool)
    : basic_regex char_t :=
  {| regex_search s :=
       match find_if isspace s with
       | Some i => Some (i, run_length isspace (drop i s))
       | None => None
       end;
     regex_search_fits := ltac:(
       intros s p l;
       assert (∀ t : list char_t, (run_length isspace t ≤ length t)%nat)
         as Hrun
         by (intros t; induction t as [|x t IHt]; simpl;
             [lia | destruct (isspace x); lia]);
       assert (∀ (t : list char_t) i,
                 find_if isspace t = Some i → (i ≤ length t)%nat) as Hfind
         by (intros t; induction t as [|x t IHt]; intros i; simpl;
             [ discriminate
             | destruct (isspace x);
               [ intros [= <-]; lia
               | destruct (find_if isspace t) as [k|]; simpl;
                 [ intros [= <-]; specialize (IHt k eq_refl); lia
                 | discriminate ] ] ]);
       cbv beta; destruct (find_if isspace s) as [i|] eqn:E;
       cbv iota; [|discriminate];
       intros [= <- <-]; specialize (Hfind s i E);
       specialize (Hrun (drop i s)); rewrite length_drop in Hrun;
       lia) |}.

(** ** The splitter as the specification words it (section 4.1)

    These definitions follow the text of the specification, not the code;
    the theorems below compare the code with them. *)

Section reference.
Context {char_t : Type} `{EqDecision char_t}.

(** The next separator occurrence in [s]: the field that ends there and the
    text after the separator.  The empty separator matches the zero-width
    position at the scan index and the scan resumes one character later, so
    that the field is that character. *)
Definition cut (sep s : list char_t)
    : option (list char_t * list char_t) :=
  match sep with
  | [] => match s with
          | [] => None
          | c :: rest => Some ([c], rest)
          end
  | _ :: _ =>
      (λ i, (take i s, drop (i + length sep)%nat s)) <$> search sep s
  end.

(** Bounded mode: cut a field at each of the first [cuts] separator
    occurrences; the last field is the rest of the source verbatim. *)
Fixpoint fields_upto (cuts : nat) (sep s : list char_t)
    : list (list char_t) :=
  match cuts with
  | O => [s]
  | S cuts =>
      match cut sep s with
      | None => [s]
      | Some (field, rest) => field :: fields_upto cuts sep rest
      end
  end.

(** A field at every separator occurrence: a cut consumes at least one
    character, so there are at most [length s] of them. *)
Definition all_fields (sep s : list char_t) : list (list char_t) :=
  fields_upto (length s) sep s.

(** Trailing-empty suppression: the longest run of empty fields at the end
    is dropped, every other field is kept. *)
Fixpoint drop_trailing_empty (fields : list (list char_t))
    : list (list char_t) :=
  match fields with
  | [] => []
  | field :: fields =>
      match field, drop_trailing_empty fields with
      | [], [] => []
      | _, kept => field :: kept
      end
  end.

(** The two-joiner rendering of section 4.2 for three or more elements:
    [joiner] between consecutive elements. *)
Fixpoint intercalate (joiner : list char_t) (texts : list (list char_t))
    : list char_t :=
  match texts with
  | [] => []
  | [t] => t
  | t :: texts => t ++ joiner ++ intercalate joiner texts
  end.
End reference.

(** * Properties *)

(** ** The joiner *)

Section join_facts.
Context {char_t elem_t joiner_t last_joiner_t : Type}.
Variable text : elem_t → list char_t.
Variable joiner_text : joiner_t → list char_t.
Variable last_joiner_text : last_joiner_t → list char_t.

Lemma intercalate_cons (j t : list char_t) (ts : list (list char_t)) :
  ts ≠ [] → intercalate j (t :: ts) = t ++ j ++ intercalate j ts.
Proof. destruct ts; [congruence | reflexivity]. Qed.

(** The loop writes [joiner] before every element but the last of its
    range and [last_joiner] before the last. *)
Lemma basic_join_loop_snoc j lj (first : list elem_t) (e_last : elem_t) :
  basic_join_loop text joiner_text last_joiner_text j lj (first ++ [e_last])
  = concat (map (λ e, joiner_text j ++ text e) first)
      ++ last_joiner_text lj ++ text e_last.
Proof.
  induction first as [|e first IH]; [reflexivity|].
  change ((e :: first) ++ [e_last]) with (e :: (first ++ [e_last])).
  cbn [basic_join_loop map concat].
  destruct (first ++ [e_last]) as [|e' rest] eqn:E.
  - destruct first; discriminate.
  - rewrite IH, <- !app_assoc. reflexivity.
Qed.

Lemma intercalate_snoc (j : list char_t) (t : list char_t)
    (ts : list (list char_t)) :
  intercalate j (t :: ts) = t ++ concat (map (λ u, j ++ u) ts).
Proof.
  revert t. induction ts as [|u ts IH]; intros t.
  - simpl. by rewrite app_nil_r.
  - rewrite intercalate_cons by discriminate. rewrite IH.
    simpl. by rewrite <- !app_assoc.
Qed.

(** On a range that can be read again [basic_join] returns the empty
    string for an empty range, the text of the element for a range of one,
    [text first ++ last_joiner ++ text second] for a range of two, and for
    a range [e1, ..., e_(n-1), e_n] of two or more elements (three or more
    included) the texts of [e1 .. e_(n-1)] with [joiner] between them, then
    [last_joiner], then the text of [e_n]. *)
Lemma basic_join_shape (j : joiner_t) (lj : last_joiner_t) :
  basic_join text joiner_text last_joiner_text [] j lj = []
  ∧ (∀ e, basic_join text joiner_text last_joiner_text [e] j lj = text e)
  ∧ (∀ e1 e2,
       basic_join text joiner_text last_joiner_text [e1; e2] j lj
       = text e1 ++ last_joiner_text lj ++ text e2)
  ∧ (∀ e1 e2 middle e_last,
       basic_join text joiner_text last_joiner_text
         (e1 :: e2 :: middle ++ [e_last]) j lj
       = intercalate (joiner_text j) (map text (e1 :: e2 :: middle))
           ++ last_joiner_text lj ++ text e_last).
Proof.
  split; [reflexivity|]. split; [intros e; apply app_nil_r|].
  split; [reflexivity|].
  intros e1 e2 middle e_last.
  change (e1 :: e2 :: middle ++ [e_last])
    with (e1 :: ((e2 :: middle) ++ [e_last])).
  unfold basic_join.
  destruct ((e2 :: middle) ++ [e_last]) as [|x rest] eqn:E; [discriminate|].
  rewrite <- E, basic_join_loop_snoc.
  change (map text (e1 :: e2 :: middle))
    with (text e1 :: map text (e2 :: middle)).
  rewrite intercalate_snoc, <- app_assoc. do 2 f_equal.
  rewrite map_map. reflexivity.
Qed.
End join_facts.

(** With one joiner for both roles the result is the plain intercalation. *)
Lemma join1_intercalate {char_t} (fields : list (list char_t))
    (sep : list char_t) :
  join1 fields sep = intercalate sep fields.
Proof.
  destruct fields as [|f fields]; [reflexivity|].
  destruct fields as [|g fields _] using rev_ind.
  - apply app_nil_r.
  - unfold join1, basic_join.
    destruct (fields ++ [g]) as [|x rest] eqn:E.
    + destruct fields; discriminate.
    + rewrite <- E, basic_join_loop_snoc, intercalate_snoc.
      rewrite map_app, concat_app. simpl.
      rewrite app_nil_r. reflexivity.
Qed.

(** ** [basic_join] on iterator ranges *)

Section basic_join_range_facts.
Context {char_t elem_t joiner_t last_joiner_t : Type}.
Variable text : elem_t → list char_t.
Variable joiner_text : joiner_t → list char_t.
Variable last_joiner_text : last_joiner_t → list char_t.

Lemma basic_join_while_container (j : joiner_t) (lj : last_joiner_t) fuel :
  ∀ (first : list elem_t) (output : list char_t),
  first ≠ [] →
  (length first ≤ fuel)%nat →
  basic_join_while text joiner_text last_joiner_text
    (container_iterator elem_t) fuel tt first first output j lj
  = Returns
      (output
       ++ basic_join_loop text joiner_text last_joiner_text j lj first).
Proof.
  induction fuel as [|fuel IH]; intros first output Hne Hfuel.
  { destruct first; [done|simpl in Hfuel; lia]. }
  destruct first as [|x second]; [done|].
  cbn [basic_join_while container_iterator it_next it_is_last it_deref
       tail head basic_join_loop].
  destruct second as [|y rest]; [done|].
  rewrite IH; [|done|simpl in *; lia].
  by rewrite <- !app_assoc.
Qed.

(** On the range of a container the template returns, and returns what
    [basic_join] on the list of its elements gives. *)
Lemma basic_join_range_container (j : joiner_t) (lj : last_joiner_t)
    (range : list elem_t) (fuel : nat) :
  (length range ≤ fuel)%nat →
  basic_join_range text joiner_text last_joiner_text
    (container_iterator elem_t) fuel tt range j lj
  = Returns (basic_join text joiner_text last_joiner_text range j lj).
Proof.
  intros Hfuel. destruct range as [|x first]; [done|].
  unfold basic_join_range, basic_join.
  cbn [container_iterator it_next it_is_last it_deref tail head].
  destruct first as [|y rest]; [by rewrite app_nil_r|].
  rewrite basic_join_while_container; [done|done|simpl in *; lia].
Qed.
End basic_join_range_facts.

(** C6. On a range that is read in a single pass the claim fails for three
    elements or more.  [join] called on the [std::istream_iterator] range
    of a stream holding [1 2 3 4], with joiner [","] and last joiner
    [" and "], returns ["1,2 and 4"], not ["1,2,3 and 4"]: the look-ahead
    [++second] of line 629 reads from the stream that [first] reads from
    and consumes the element [3].  On a stream of three elements the last
    [*first] of line 631 dereferences the end-of-stream iterator.  The
    same elements in a container give ["1,2,3 and 4"] and ["1,2 and 3"];
    ranges of fewer than three elements are joined as claimed. *)
Theorem C6_single_pass_range_loses_elements (fuel : nat) :
  join_istream (S (S fuel)) [chars "1"; chars "2"; chars "3"; chars "4"]
    (chars ",") (chars " and ")
  = Returns (chars "1,2 and 4")
  ∧ join [chars "1"; chars "2"; chars "3"; chars "4"]
      (chars ",") (chars " and ")
    = chars "1,2,3 and 4"
  ∧ join_istream (S (S fuel)) [chars "1"; chars "2"; chars "3"]
      (chars ",") (chars " and ")
    = Undefined
  ∧ join [chars "1"; chars "2"; chars "3"] (chars ",") (chars " and ")
    = chars "1,2 and 3"
  ∧ join_istream (S fuel) [chars "1"; chars "2"] (chars ",") (chars " and ")
    = Returns (chars "1 and 2")
  ∧ join_istream fuel [chars "1"] (chars ",") (chars " and ")
    = Returns (chars "1")
  ∧ join_istream fuel [] (chars ",") (chars " and ") = Returns (chars "").
Proof. repeat split; reflexivity. Qed.

(** C7, as the code has it.  The joiners are written verbatim, nothing is
    put around them: with joiner [","] and last joiner ["and"] the results
    are [""], ["x"], ["xandy"] and ["x,yandz"]; the renderings of the
    specification are obtained with the last joiner [" and "]. *)
Theorem C7_join_examples_verbatim :
  join [] (chars ",") (chars "and") = chars ""
  ∧ join [chars "x"] (chars ",") (chars "and") = chars "x"
  ∧ join [chars "x"; chars "y"] (chars ",") (chars "and") = chars "xandy"
  ∧ join [chars "x"; chars "y"; chars "z"] (chars ",") (chars "and")
    = chars "x,yandz"
  ∧ join [chars "x"; chars "y"] (chars ",") (chars " and ")
    = chars "x and y"
  ∧ join [chars "x"; chars "y"; chars "z"] (chars ",") (chars " and ")
    = chars "x,y and z".
Proof. repeat split; reflexivity. Qed.

(** C7 as the specification writes it fails: no space is inserted around
    the last joiner. *)
Lemma C7_join_examples_as_written_fail :
  ¬ (join [] (chars ",") (chars "and") = chars ""
     ∧ join [chars "x"] (chars ",") (chars "and") = chars "x"
     ∧ join [chars "x"; chars "y"] (chars ",") (chars "and")
       = chars "x and y"
     ∧ join [chars "x"; chars "y"; chars "z"] (chars ",") (chars "and")
       = chars "x,y and z").
Proof. intros (_ & _ & H & _). vm_compute in H. discriminate H. Qed.

(** ** The empty source *)

(** C9. On the empty source every overload returns no field at all, for
    every separator (character, literal, pattern, default whitespace) and
    every [max_fields]. *)
Theorem C9_split_empty_source {char_t} `{EqDecision char_t}
    (c : char_t) (sep : list char_t) (sep_re : basic_regex char_t)
    (max_fields : Z) :
  split_char [] c max_fields = Returns []
  ∧ split_sv [] sep max_fields = Returns []
  ∧ split_regex [] sep_re max_fields = Returns []
  ∧ split_default sep_re [] max_fields = Returns [].
Proof. repeat split; reflexivity. Qed.

(** ** Arithmetic on [size_t] *)

Lemma modulus_value : size_t.modulus = 18446744073709551616.
Proof. reflexivity. Qed.

Lemma npos_value : npos = 18446744073709551615.
Proof. reflexivity. Qed.

Lemma wrap_small (z : Z) : 0 <= z <= npos → size_t.wrap z = z.
Proof.
  rewrite npos_value. intros Hz. unfold size_t.wrap.
  rewrite modulus_value. apply Z.mod_small. lia.
Qed.

(** Removes the [size_t.wrap] around values [lia] can bound. *)
Ltac unwrap :=
  repeat match goal with
         | |- context [size_t.wrap ?z] => rewrite (wrap_small z) by lia
         end.

Lemma wrap_range (z : Z) : 0 <= size_t.wrap z <= npos.
Proof.
  rewrite npos_value. unfold size_t.wrap. rewrite modulus_value.
  pose proof (Z.mod_pos_bound z 18446744073709551616). lia.
Qed.

(** ** Searching in a string view *)

Section string_view_facts.
Context {char_t : Type} `{EqDecision char_t}.
Implicit Types (s pre rest sep needle : list char_t) (c : char_t).

Lemma starts_with_prefix needle s :
  starts_with needle s = true ↔ ∃ rest, s = needle ++ rest.
Proof.
  revert s. induction needle as [|x needle IH]; intros [|y s]; simpl.
  - split; [by exists []|done].
  - split; [by eexists|done].
  - split; [done|]. by intros [? ?].
  - rewrite andb_true_iff, bool_decide_eq_true, IH. split.
    + intros [-> [rest ->]]. by exists rest.
    + intros [rest [= -> ->]]. eauto.
Qed.

Lemma search_nil s : search [] s = Some 0%nat.
Proof. by destruct s. Qed.

Lemma search_in_nil x sep : search (x :: sep) [] = None.
Proof. reflexivity. Qed.

(** A found occurrence splits the string around the needle. *)
Lemma search_Some needle s i :
  search needle s = Some i →
  s = take i s ++ needle ++ drop (i + length needle) s.
Proof.
  revert i. induction s as [|y s IH]; intros i; simpl.
  - destruct (starts_with needle []) eqn:E; [|done].
    intros [= <-]. apply starts_with_prefix in E as [rest E].
    symmetry in E. apply app_eq_nil in E as [-> ->]. done.
  - destruct (starts_with needle (y :: s)) eqn:E.
    + intros [= <-]. apply starts_with_prefix in E as [rest E].
      rewrite E at 1. simpl. rewrite E, drop_app_length. done.
    + destruct (search needle s) as [k|] eqn:Ek; simpl; [|done].
      intros [= <-]. simpl. f_equal. by apply IH.
Qed.

Lemma search_Some_fits needle s i :
  search needle s = Some i → (i + length needle ≤ length s)%nat.
Proof.
  revert i. induction s as [|y s IH]; intros i; simpl.
  - destruct (starts_with needle []) eqn:E; [|done].
    intros [= <-]. apply starts_with_prefix in E as [rest E].
    symmetry in E. apply app_eq_nil in E as [-> ->]. done.
  - destruct (starts_with needle (y :: s)) eqn:E.
    + intros [= <-]. apply starts_with_prefix in E as [rest E].
      apply (f_equal length) in E. rewrite length_app in E.
      simpl in *. lia.
    + destruct (search needle s) as [k|] eqn:Ek; simpl; [|done].
      intros [= <-]. specialize (IH k eq_refl). simpl. lia.
Qed.

(** Searching for the one-character needle is searching the character. *)
Lemma search_singleton c s : search [c] s = index_of c s.
Proof.
  induction s as [|y s IH]; [reflexivity|]. simpl.
  rewrite andb_true_r. destruct (decide (y = c)) as [->|Hne].
  - by rewrite bool_decide_eq_true_2.
  - rewrite bool_decide_eq_false_2 by congruence. by rewrite IH.
Qed.

Lemma sv_length_app pre s : sv_length (pre ++ s) = sv_length pre + sv_length s.
Proof. unfold sv_length. rewrite length_app. lia. Qed.

Lemma sv_length_nonneg s : 0 <= sv_length s.
Proof. unfold sv_length. lia. Qed.

(** [find] from the offset that ends [pre] looks at what follows [pre]. *)
Lemma find_at pre s sep :
  find (pre ++ s) sep (sv_length pre)
  = match search sep s with
    | Some i => sv_length pre + Z.of_nat i
    | None => npos
    end.
Proof.
  unfold find. rewrite sv_length_app.
  pose proof (sv_length_nonneg s).
  rewrite (proj2 (Z.leb_le _ _)) by lia.
  unfold sv_length at 1. rewrite Nat2Z.id, drop_app_length. done.
Qed.

Lemma find_char_find s c pos : find_char s c pos = find s [c] pos.
Proof.
  unfold find_char, find. rewrite search_singleton.
  destruct (pos <? sv_length s) eqn:E1, (pos <=? sv_length s) eqn:E2;
    try done.
  - apply Z.ltb_lt in E1. apply Z.leb_gt in E2. lia.
  - apply Z.ltb_ge in E1. apply Z.leb_le in E2.
    assert (pos = sv_length s) as -> by lia.
    unfold sv_length. rewrite Nat2Z.id, drop_all. done.
Qed.

(** [substr] from the offset that ends [pre]. *)
Lemma substr_at pre s n :
  0 <= n →
  substr (pre ++ s) (sv_length pre) n
  = Some (take (Z.to_nat (Z.min n (sv_length s))) s).
Proof.
  intros Hn. unfold substr. rewrite sv_length_app.
  pose proof (sv_length_nonneg s).
  rewrite (proj2 (Z.ltb_ge _ _)) by lia.
  replace (Z.to_nat (sv_length pre)) with (length pre)
    by (unfold sv_length; lia).
  rewrite drop_app_length. do 3 f_equal. lia.
Qed.

Lemma substr_at_rest pre s n :
  sv_length s <= n → substr (pre ++ s) (sv_length pre) n = Some s.
Proof.
  intros Hn. pose proof (sv_length_nonneg s).
  rewrite substr_at by lia. rewrite Z.min_r by lia.
  unfold sv_length. rewrite Nat2Z.id, take_ge; done.
Qed.

Lemma substr_at_take pre s (i : nat) :
  (i ≤ length s)%nat →
  substr (pre ++ s) (sv_length pre) (Z.of_nat i) = Some (take i s).
Proof.
  intros Hi. rewrite substr_at by lia. unfold sv_length.
  rewrite Z.min_l by lia. by rewrite Nat2Z.id.
Qed.
End string_view_facts.

(** ** The reference splitter *)

Section reference_facts.
Context {char_t : Type} `{EqDecision char_t}.
Implicit Types (s pre rest sep field : list char_t) (c : char_t).
Implicit Types (fields : list (list char_t)).

Lemma cut_nil sep : cut sep [] = None.
Proof. by destruct sep. Qed.

(** A cut splits the source around the separator and consumes at least
    one character. *)
Lemma cut_Some sep s field rest :
  cut sep s = Some (field, rest) →
  s = field ++ sep ++ rest ∧ (length rest < length s)%nat.
Proof.
  destruct sep as [|x sep].
  - destruct s as [|c s]; [done|]. intros [= <- <-]. simpl. split; [done|lia].
  - unfold cut. destruct (search (x :: sep) s) as [i|] eqn:E; [|done].
    intros [= <- <-]. split; [exact (search_Some (x :: sep) s i E)|].
    apply search_Some_fits in E. rewrite length_drop. simpl in *. lia.
Qed.

Lemma fields_upto_enough sep n m s :
  (length s ≤ n)%nat → (length s ≤ m)%nat →
  fields_upto n sep s = fields_upto m sep s.
Proof.
  revert m s. induction n as [|n IH]; intros [|m] s Hn Hm; simpl; try done.
  - destruct s; [|simpl in Hn; lia]. by rewrite cut_nil.
  - destruct s; [|simpl in Hm; lia]. by rewrite cut_nil.
  - destruct (cut sep s) as [[field rest]|] eqn:E; [|done].
    apply cut_Some in E as [_ Hlen]. f_equal. apply IH; lia.
Qed.

Lemma all_fields_unfold sep s :
  all_fields sep s
  = match cut sep s with
    | None => [s]
    | Some (field, rest) => field :: all_fields sep rest
    end.
Proof.
  unfold all_fields. destruct s as [|c s]; [by rewrite cut_nil|].
  cbn [length fields_upto].
  destruct (cut sep (c :: s)) as [[field rest]|] eqn:E; [|done].
  apply cut_Some in E as [_ Hlen]. f_equal.
  apply fields_upto_enough; simpl in *; lia.
Qed.

Lemma all_fields_nil sep : all_fields sep [] = [[]].
Proof. reflexivity. Qed.

Lemma fields_upto_nonempty n sep s : fields_upto n sep s ≠ [].
Proof. destruct n; simpl; [done|]. by destruct (cut sep s) as [[??]|]. Qed.

(** Re-inserting the separator between the fields of the reference
    splitter gives the source back, in bounded and in unbounded mode. *)
Lemma intercalate_fields_upto n sep s :
  intercalate sep (fields_upto n sep s) = s.
Proof.
  revert s. induction n as [|n IH]; intros s; simpl; [done|].
  destruct (cut sep s) as [[field rest]|] eqn:E; [|done].
  rewrite intercalate_cons by apply fields_upto_nonempty.
  rewrite IH. apply cut_Some in E as [-> _]. done.
Qed.

Lemma length_fields_upto n sep s : (length (fields_upto n sep s) ≤ S n)%nat.
Proof.
  revert s. induction n as [|n IH]; intros s; simpl; [lia|].
  destruct (cut sep s) as [[field rest]|]; simpl; [|lia].
  specialize (IH rest). lia.
Qed.

(** *** Trailing-empty suppression *)

Lemma drop_trailing_empty_replicate k :
  drop_trailing_empty (replicate k ([] : list char_t)) = [].
Proof. induction k as [|k IH]; simpl; [done|]. by rewrite IH. Qed.

Lemma drop_trailing_empty_app_nil fields1 fields2 :
  drop_trailing_empty fields2 = [] →
  drop_trailing_empty (fields1 ++ fields2) = drop_trailing_empty fields1.
Proof.
  intros E. induction fields1 as [|f fields1 IH]; simpl; [done|].
  by rewrite IH.
Qed.

Lemma drop_trailing_empty_app_keep fields1 fields2 :
  drop_trailing_empty fields2 ≠ [] →
  drop_trailing_empty (fields1 ++ fields2)
  = fields1 ++ drop_trailing_empty fields2.
Proof.
  intros E. induction fields1 as [|f fields1 IH]; simpl; [done|].
  rewrite IH. destruct (fields1 ++ drop_trailing_empty fields2) eqn:E'.
  - apply app_eq_nil in E' as [_ ?]. done.
  - by destruct f.
Qed.

Lemma drop_trailing_empty_cons_keep field fields :
  field ≠ [] →
  drop_trailing_empty (field :: fields) = field :: drop_trailing_empty fields.
Proof. intros Hf. simpl. by destruct field. Qed.

(** What [drop_trailing_empty] removes is a run of empty fields at the end,
    and what it keeps does not end with an empty field. *)
Lemma drop_trailing_empty_spec fields :
  ∃ k, fields = drop_trailing_empty fields ++ replicate k []
       ∧ last (drop_trailing_empty fields) ≠ Some [].
Proof.
  induction fields as [|f fields (k & E & Hlast)]; [by exists 0%nat|].
  simpl. destruct (drop_trailing_empty fields) as [|g kept] eqn:Ek.
  - destruct f as [|c f].
    + exists (S k). simpl in *. by rewrite E.
    + exists k. simpl in *. by rewrite E.
  - exists k. split.
    + destruct f; simpl; by rewrite E.
    + destruct f; simpl; done.
Qed.

Lemma drop_trailing_empty_id fields field :
  field ≠ [] →
  drop_trailing_empty (fields ++ [field]) = fields ++ [field].
Proof.
  intros Hf. rewrite drop_trailing_empty_app_keep.
  - by rewrite drop_trailing_empty_cons_keep.
  - by rewrite drop_trailing_empty_cons_keep.
Qed.
End reference_facts.

(** ** The literal-separator loops against the reference splitter *)

Section split_sv_facts.
Context {char_t : Type} `{EqDecision char_t}.
Implicit Types (s pre rest sep field : list char_t) (c : char_t).
Implicit Types (result fields : list (list char_t)).

Lemma size_snoc result field : size (result ++ [field]) = size result + 1.
Proof. unfold size. rewrite length_app. simpl. lia. Qed.

Lemma sv_length_cons c s : sv_length (c :: s) = 1 + sv_length s.
Proof. unfold sv_length. simpl. lia. Qed.

Lemma sv_length_nil : sv_length ([] : list char_t) = 0.
Proof. reflexivity. Qed.

Lemma sv_length_zero s : sv_length s = 0 → s = [].
Proof. unfold sv_length. destruct s; [done|simpl; lia]. Qed.

(** The bounded loop, entered at the offset that ends [pre] with [result]
    already produced, appends the fields the reference splitter cuts from
    the rest of the source with the cuts that remain. *)
Lemma split_sv_bounded_spec sep max_fields fuel : ∀ pre s result,
  sv_length (pre ++ s) < npos →
  (length s < fuel)%nat →
  split_sv_bounded fuel (pre ++ s) sep (sv_length sep)
    (if sv_length sep =? 0 then 1 else 0) max_fields (sv_length pre) result
  = Returns
      (result ++ fields_upto (Z.to_nat (max_fields - size result)) sep s).
Proof.
  induction fuel as [|fuel IH]; intros pre s result Hlen Hfuel; [lia|].
  pose proof (sv_length_nonneg pre) as Hpre.
  pose proof (sv_length_nonneg s) as Hs.
  rewrite sv_length_app in Hlen.
  cbn [split_sv_bounded]. rewrite Z.geb_leb.
  destruct (max_fields <=? size result) eqn:Hlim.
  { (* the limit is reached: the rest, verbatim *)
    apply Z.leb_le in Hlim.
    rewrite wrap_small by lia. rewrite substr_at_rest by lia.
    rewrite Z.eqb_refl. cbn.
    replace (Z.to_nat (max_fields - size result)) with 0%nat by lia.
    done. }
  apply Z.leb_gt in Hlim.
  replace (Z.to_nat (max_fields - size result))
    with (S (Z.to_nat (max_fields - (size result + 1)))) by lia.
  rewrite find_at. cbn [fields_upto].
  destruct sep as [|x sep].
  - (* empty separator: one character per cut *)
    rewrite search_nil, sv_length_nil. cbn [Z.eqb Z.of_nat].
    rewrite !Z.add_0_r.
    destruct s as [|c rest].
    + rewrite sv_length_nil in *. unwrap.
      rewrite substr_at by lia. rewrite take_nil.
      rewrite sv_length_app, sv_length_nil.
      rewrite (proj2 (Z.leb_gt _ _)) by lia.
      rewrite andb_false_r. done.
    + rewrite sv_length_cons in *. unwrap.
      pose proof (sv_length_nonneg rest).
      replace (sv_length pre + 1 - sv_length pre) with (Z.of_nat 1) by lia.
      rewrite substr_at_take by (simpl; lia).
      rewrite sv_length_app, sv_length_cons.
      rewrite (proj2 (Z.eqb_neq _ _)) by lia.
      rewrite (proj2 (Z.leb_le _ _)) by lia.
      cbn [negb andb take cut].
      replace (sv_length pre + 1) with (sv_length (pre ++ [c]))
        by (rewrite sv_length_app, sv_length_cons, sv_length_nil; lia).
      rewrite (cons_middle c pre rest), app_assoc.
      rewrite IH.
      * rewrite size_snoc, <- app_assoc. done.
      * rewrite !sv_length_app, sv_length_cons, sv_length_nil. lia.
      * simpl in Hfuel. lia.
  - (* non-empty separator *)
    assert ((sv_length (x :: sep) =? 0) = false) as ->
      by (rewrite sv_length_cons; pose proof (sv_length_nonneg sep);
          apply Z.eqb_neq; lia).
    unfold cut.
    destruct (search (x :: sep) s) as [i|] eqn:Hsearch.
    + pose proof (search_Some_fits _ _ _ Hsearch) as Hfits.
      pose proof (search_Some _ _ _ Hsearch) as Hsplit.
      assert (Z.of_nat i + sv_length (x :: sep) <= sv_length s) as Hfits'
        by (unfold sv_length; lia).
      assert (1 <= sv_length (x :: sep)) as Hsep
        by (rewrite sv_length_cons; pose proof (sv_length_nonneg sep); lia).
      rewrite Z.add_0_r.
      rewrite (wrap_small (sv_length pre + Z.of_nat i)) by lia.
      rewrite (wrap_small (sv_length pre + Z.of_nat i - sv_length pre))
        by lia.
      replace (sv_length pre + Z.of_nat i - sv_length pre)
        with (Z.of_nat i) by lia.
      rewrite substr_at_take by lia.
      rewrite wrap_small by lia.
      rewrite sv_length_app.
      rewrite (proj2 (Z.eqb_neq _ _)) by lia.
      rewrite (proj2 (Z.leb_le _ _)) by lia.
      cbn [negb andb fmap option_fmap option_map].
      set (k := (i + length (x :: sep))%nat) in *.
      replace (sv_length pre + Z.of_nat i + sv_length (x :: sep))
        with (sv_length (pre ++ take k s)).
      2:{ rewrite sv_length_app. unfold sv_length at 2.
          rewrite length_take. unfold sv_length, k. lia. }
      rewrite <- (take_drop k s) at 1. rewrite app_assoc.
      rewrite IH.
      * rewrite size_snoc, <- app_assoc. done.
      * rewrite <- app_assoc, take_drop, sv_length_app. lia.
      * rewrite length_drop. unfold k. simpl in *. lia.
    + pose proof npos_value. rewrite Z.add_0_r. unwrap.
      rewrite substr_at_rest by lia.
      rewrite Z.eqb_refl. done.
Qed.

(** The unbounded loop, entered at the offset that ends [pre] with
    [trailing_empty] empty fields buffered, appends the fields of the rest
    of the source, the buffered ones first, less the trailing run of empty
    ones. *)
Lemma split_sv_unbounded_spec sep fuel : ∀ pre s trailing_empty result,
  s ≠ [] →
  sv_length (pre ++ s) < npos →
  (length s ≤ fuel)%nat →
  0 <= trailing_empty <= sv_length pre →
  split_sv_unbounded fuel (pre ++ s) sep (sv_length sep)
    (if sv_length sep =? 0 then 1 else 0) (sv_length pre) trailing_empty
    result
  = Returns
      (result ++ drop_trailing_empty
                   (replicate (Z.to_nat trailing_empty) []
                    ++ all_fields sep s)).
Proof.
  induction fuel as [|fuel IH]; intros pre s te result Hne Hlen Hfuel Hte.
  { destruct s; [done|simpl in Hfuel; lia]. }
  pose proof (sv_length_nonneg pre) as Hpre.
  pose proof (sv_length_nonneg s) as Hs.
  pose proof npos_value as Hnpos.
  rewrite sv_length_app in Hlen.
  cbn [split_sv_unbounded]. rewrite find_at, (all_fields_unfold sep s).
  destruct sep as [|x sep].
  - (* empty separator: one character per cut *)
    rewrite search_nil, sv_length_nil. cbn [Z.eqb Z.of_nat].
    rewrite !Z.add_0_r.
    destruct s as [|c rest]; [done|].
    rewrite sv_length_cons in *. pose proof (sv_length_nonneg rest).
    unwrap. rewrite (proj2 (Z.eqb_neq _ _)) by lia.
    replace (sv_length pre + 1 - sv_length pre) with (Z.of_nat 1) by lia.
    rewrite substr_at_take by (simpl; lia).
    rewrite sv_length_app, sv_length_cons.
    rewrite (proj2 (Z.eqb_neq (sv_length pre + 1) npos)) by lia.
    cbn [negb andb firstn cut]. rewrite take_0. unfold flush.
    destruct rest as [|c' rest'].
    + rewrite sv_length_nil, (proj2 (Z.ltb_ge _ _)) by lia.
      rewrite drop_trailing_empty_app_keep by done.
      by rewrite <- !app_assoc.
    + assert (1 <= sv_length (c' :: rest'))
        by (rewrite sv_length_cons; pose proof (sv_length_nonneg rest'); lia).
      rewrite (proj2 (Z.ltb_lt _ _)) by lia.
      replace (sv_length pre + 1) with (sv_length (pre ++ [c]))
        by (rewrite sv_length_app, sv_length_cons, sv_length_nil; lia).
      rewrite (cons_middle c pre), app_assoc.
      rewrite IH; [|done| |simpl in *; lia|].
      * rewrite (drop_trailing_empty_app_keep (replicate (Z.to_nat te) []))
          by (by rewrite drop_trailing_empty_cons_keep).
        rewrite drop_trailing_empty_cons_keep by done.
        by rewrite <- !app_assoc.
      * rewrite !sv_length_app, !sv_length_cons, sv_length_nil in *. lia.
      * rewrite !sv_length_app, !sv_length_cons, sv_length_nil in *. lia.
  - (* non-empty separator *)
    assert ((sv_length (x :: sep) =? 0) = false) as ->
      by (rewrite sv_length_cons; pose proof (sv_length_nonneg sep);
          apply Z.eqb_neq; lia).
    unfold cut, flush.
    destruct (search (x :: sep) s) as [i|] eqn:Hsearch.
    + pose proof (search_Some_fits _ _ _ Hsearch) as Hfits.
      assert (Z.of_nat i + sv_length (x :: sep) <= sv_length s) as Hfits'
        by (unfold sv_length; lia).
      assert (1 <= sv_length (x :: sep)) as Hsep
        by (rewrite sv_length_cons; pose proof (sv_length_nonneg sep); lia).
      rewrite Z.add_0_r. unwrap.
      replace (sv_length pre + Z.of_nat i - sv_length pre)
        with (Z.of_nat i) by lia.
      rewrite substr_at_take by lia.
      rewrite sv_length_app.
      rewrite (proj2 (Z.eqb_neq (sv_length pre + Z.of_nat i) npos)) by lia.
      cbn [negb andb fmap option_fmap option_map].
      set (k := (i + length (x :: sep))%nat) in *.
      assert (sv_length pre + Z.of_nat i + sv_length (x :: sep)
              = sv_length (pre ++ take k s)) as Ek.
      { rewrite sv_length_app. unfold sv_length at 4.
        rewrite length_take. unfold sv_length, k. lia. }
      assert (sv_length (drop k s) = sv_length s - Z.of_nat k) as Edrop.
      { unfold sv_length. rewrite length_drop. lia. }
      assert (Z.of_nat k = Z.of_nat i + sv_length (x :: sep)) as Ek'
        by (unfold k, sv_length; lia).
      assert ((pre ++ take k s) ++ drop k s = pre ++ s) as Esplit
        by (by rewrite <- app_assoc, take_drop).
      assert (sv_length ((pre ++ take k s) ++ drop k s) < npos) as Hlen'
        by (rewrite Esplit, sv_length_app; lia).
      assert ((length (drop k s) ≤ fuel)%nat) as Hfuel'
        by (rewrite length_drop; unfold k; simpl in *; lia).
      destruct (decide (i = 0%nat)) as [->|Hi].
      * (* an empty field: buffered *)
        rewrite Z.add_0_r, Z.eqb_refl.
        replace (Z.to_nat te) with (Z.to_nat (te + 1) - 1)%nat by lia.
        destruct (drop k s) as [|d rest] eqn:Hrest.
        -- rewrite sv_length_nil in Edrop.
           rewrite (proj2 (Z.ltb_ge _ _)) by lia.
           rewrite drop_trailing_empty_app_nil by done.
           by rewrite drop_trailing_empty_replicate, app_nil_r.
        -- rewrite sv_length_cons in Edrop.
           pose proof (sv_length_nonneg rest).
           rewrite (proj2 (Z.ltb_lt _ _)) by lia.
           rewrite Z.add_0_r in Ek. rewrite Ek, <- Esplit.
           rewrite IH; [|done|done|done|lia].
           rewrite take_0, all_fields_unfold.
           replace (Z.to_nat (te + 1)) with (S (Z.to_nat (te + 1) - 1))
             at 1 by lia.
           rewrite replicate_S_end, <- app_assoc. done.
      * (* a non-empty field: the buffer is flushed *)
        rewrite (proj2 (Z.eqb_neq _ _)) by lia.
        assert (take i s ≠ []) as Hfield.
        { intros E. apply (f_equal length) in E.
          rewrite length_take in E. simpl in *. lia. }
        rewrite drop_trailing_empty_app_keep
          by (by rewrite drop_trailing_empty_cons_keep).
        rewrite drop_trailing_empty_cons_keep by done.
        destruct (drop k s) as [|d rest] eqn:Hrest.
        -- rewrite sv_length_nil in Edrop.
           rewrite (proj2 (Z.ltb_ge _ _)) by lia.
           by rewrite <- !app_assoc.
        -- rewrite sv_length_cons in Edrop.
           pose proof (sv_length_nonneg rest).
           rewrite (proj2 (Z.ltb_lt _ _)) by lia.
           rewrite Ek, <- Esplit.
           rewrite IH; [|done|done|done|].
           ++ by rewrite <- !app_assoc.
           ++ pose proof (sv_length_nonneg (pre ++ take k s)). lia.
    + rewrite Z.add_0_r. unwrap.
      rewrite (proj2 (Z.eqb_neq _ _)) by lia.
      rewrite substr_at_rest by lia.
      rewrite Z.eqb_refl. cbn [negb andb fmap option_fmap option_map].
      rewrite drop_trailing_empty_id by done.
      by rewrite <- !app_assoc.
Qed.
End split_sv_facts.

(** ** The overloads against the reference splitter *)

Section split_facts.
Context {char_t : Type} `{EqDecision char_t}.
Implicit Types (str s sep : list char_t) (c : char_t).

(** Unbounded mode, literal separator. *)
Lemma split_sv_unbounded_correct str sep :
  sv_length str < npos →
  split_sv str sep 0
  = Returns (drop_trailing_empty (all_fields sep str)).
Proof.
  intros Hlen. unfold split_sv.
  destruct (sv_length str =? 0) eqn:E.
  - apply Z.eqb_eq, sv_length_zero in E as ->. done.
  - apply Z.eqb_neq in E. cbn [Z.eqb negb].
    apply (split_sv_unbounded_spec sep (fuel_for str) [] str 0 []).
    + by intros ->.
    + done.
    + unfold fuel_for. lia.
    + done.
Qed.

(** Bounded mode, literal separator: [max_fields - 1] cuts, then the rest
    verbatim. *)
Lemma split_sv_bounded_correct str sep max_fields :
  sv_length str < npos →
  str ≠ [] →
  0 < max_fields <= size_t.max →
  split_sv str sep max_fields
  = Returns (fields_upto (Z.to_nat (max_fields - 1)) sep str).
Proof.
  intros Hlen Hne Hmax. unfold split_sv.
  destruct (sv_length str =? 0) eqn:E.
  { apply Z.eqb_eq, sv_length_zero in E. done. }
  rewrite (proj2 (Z.eqb_neq max_fields 0)) by lia. cbn [negb].
  change size_t.max with npos in Hmax. unwrap.
  rewrite (split_sv_bounded_spec sep (max_fields - 1) (fuel_for str) [] str [])
    by (done || unfold fuel_for; lia).
  cbn [app]. do 3 f_equal. unfold size. simpl. lia.
Qed.

(** The loops do not depend on the fuel once there is more of it than
    characters in the source. *)
Lemma split_sv_fuel_irrelevant str sep max_fields fuel :
  sv_length str < npos →
  str ≠ [] →
  (length str < fuel)%nat →
  split_sv_bounded fuel str sep (sv_length sep)
    (if sv_length sep =? 0 then 1 else 0) max_fields 0 []
  = split_sv_bounded (fuel_for str) str sep (sv_length sep)
      (if sv_length sep =? 0 then 1 else 0) max_fields 0 []
  ∧ split_sv_unbounded fuel str sep (sv_length sep)
      (if sv_length sep =? 0 then 1 else 0) 0 0 []
    = split_sv_unbounded (fuel_for str) str sep (sv_length sep)
        (if sv_length sep =? 0 then 1 else 0) 0 0 [].
Proof.
  intros Hlen Hne Hfuel. split.
  - rewrite (split_sv_bounded_spec sep max_fields fuel [] str []) by done.
    rewrite (split_sv_bounded_spec sep max_fields (fuel_for str) [] str [])
      by (done || unfold fuel_for; lia).
    done.
  - rewrite (split_sv_unbounded_spec sep fuel [] str 0 [])
      by (done || lia).
    rewrite (split_sv_unbounded_spec sep (fuel_for str) [] str 0 [])
      by (done || unfold fuel_for; lia).
    done.
Qed.

Lemma find_range str sep pos :
  0 <= pos → sv_length str <= npos → 0 <= find str sep pos <= npos.
Proof.
  intros Hpos Hlen. unfold find.
  destruct (pos <=? sv_length str) eqn:E; [|rewrite npos_value; lia].
  apply Z.leb_le in E.
  destruct (search sep _) as [i|] eqn:Hs; [|rewrite npos_value; lia].
  apply search_Some_fits in Hs. rewrite length_drop in Hs.
  unfold sv_length in *. lia.
Qed.

(** The loops of the character overload are those of the literal overload
    run on the one-character separator. *)
Lemma split_char_bounded_sv str c max_fields fuel : ∀ a result,
  sv_length str < npos → 0 <= a →
  split_char_bounded fuel str c max_fields a result
  = split_sv_bounded fuel str [c] 1 0 max_fields a result.
Proof.
  induction fuel as [|fuel IH]; intros a result Hlen Ha; [done|].
  cbn [split_char_bounded split_sv_bounded].
  rewrite find_char_find, Z.add_0_r.
  rewrite (wrap_small (find str [c] a)) by (apply find_range; lia).
  destruct (substr _ _ _); [|done].
  destruct (_ && _); [|done].
  apply IH; [done|]. apply wrap_range.
Qed.

Lemma split_char_unbounded_sv str c fuel : ∀ a trailing_empty result,
  sv_length str < npos → 0 <= a →
  split_char_unbounded fuel str c a trailing_empty result
  = split_sv_unbounded fuel str [c] 1 0 a trailing_empty result.
Proof.
  induction fuel as [|fuel IH]; intros a te result Hlen Ha; [done|].
  cbn [split_char_unbounded split_sv_unbounded].
  rewrite find_char_find, Z.add_0_r.
  rewrite (wrap_small (find str [c] a)) by (apply find_range; lia).
  destruct (_ =? a).
  - destruct (_ && _); [|done]. apply IH; [done|]. apply wrap_range.
  - destruct (substr _ _ _); [|done].
    destruct (_ && _); [|done]. apply IH; [done|]. apply wrap_range.
Qed.

Lemma split_char_as_split_sv str c max_fields :
  sv_length str < npos →
  split_char str c max_fields = split_sv str [c] max_fields.
Proof.
  intros Hlen. unfold split_char, split_sv.
  destruct (sv_length str =? 0); [done|].
  change (sv_length [c]) with 1. cbn [Z.eqb].
  destruct (negb (max_fields =? 0)).
  - by apply split_char_bounded_sv.
  - by apply split_char_unbounded_sv.
Qed.

(** C10. The character overload and the literal overload agree on the
    one-character separator, for every source (a string view holds fewer
    than [npos] characters), every character and every [max_fields]. *)
Theorem C10_split_char_agrees_with_literal str c max_fields :
  sv_length str < npos →
  split_char str c max_fields = split_sv str [c] max_fields.
Proof. apply split_char_as_split_sv. Qed.
End split_facts.

Lemma C10_split_char_agrees_with_literal_witness :
  sv_length (chars "a,b,,c") < npos
  ∧ split_char (chars "a,b,,c") ","%char 3
    = split_sv (chars "a,b,,c") (chars ",") 3.
Proof.
  split; [reflexivity|].
  apply (C10_split_char_agrees_with_literal (chars "a,b,,c") ","%char 3).
  reflexivity.
Defined.

(** ** Unbounded mode *)

Section unbounded_mode.
Context {char_t : Type} `{EqDecision char_t}.
Implicit Types (str s sep : list char_t) (c : char_t).

(** C1. In unbounded mode the character and the literal overloads return,
    for every source (a string view holds fewer than [npos] characters),
    every field of the source, leading and interior empty ones included,
    except the run of empty fields at the very end: the fields returned,
    followed by some number [k] of empty fields, are all the fields of the
    source, and the last field returned is not empty.  In particular
    ["a,b,,c"] gives ["a"; "b"; ""; "c"] and ["a,b,,"] gives ["a"; "b"]. *)
Theorem C1_split_unbounded_drops_trailing_run str c sep :
  sv_length str < npos →
  (∃ fields k,
     split_char str c 0 = Returns fields
     ∧ all_fields [c] str = fields ++ replicate k []
     ∧ last fields ≠ Some [])
  ∧ (∃ fields k,
       split_sv str sep 0 = Returns fields
       ∧ all_fields sep str = fields ++ replicate k []
       ∧ last fields ≠ Some [])
  ∧ split_sv (chars "a,b,,c") (chars ",") 0
    = Returns [chars "a"; chars "b"; chars ""; chars "c"]
  ∧ split_char (chars "a,b,,c") ","%char 0
    = Returns [chars "a"; chars "b"; chars ""; chars "c"]
  ∧ split_sv (chars "a,b,,") (chars ",") 0 = Returns [chars "a"; chars "b"]
  ∧ split_char (chars "a,b,,") ","%char 0
    = Returns [chars "a"; chars "b"].
Proof.
  intros Hlen. split; [|split; [|by vm_compute]].
  - rewrite split_char_as_split_sv by done.
    rewrite split_sv_unbounded_correct by done.
    destruct (drop_trailing_empty_spec (all_fields [c] str)) as (k & E & Hl).
    by exists (drop_trailing_empty (all_fields [c] str)), k.
  - rewrite split_sv_unbounded_correct by done.
    destruct (drop_trailing_empty_spec (all_fields sep str)) as (k & E & Hl).
    by exists (drop_trailing_empty (all_fields sep str)), k.
Qed.

Lemma all_fields_empty_sep s :
  all_fields [] s = map (λ c, [c]) s ++ [[]].
Proof.
  induction s as [|c s IH]; [done|].
  rewrite all_fields_unfold. cbn [cut map app]. by rewrite IH.
Qed.

Lemma drop_trailing_empty_singletons s :
  drop_trailing_empty (map (λ c, [c]) s ++ [[]]) = map (λ c, [c]) s.
Proof.
  induction s as [|c s IH]; [done|].
  cbn [map app]. rewrite drop_trailing_empty_cons_keep by done.
  by rewrite IH.
Qed.

(** C8. With the empty literal separator, unbounded mode on a non-empty
    source (of fewer than [npos] characters, as every string view) returns
    one field per character of the source, in order: the loop takes one
    step per character and returns.  In particular ["abc"] gives
    ["a"; "b"; "c"]. *)
Theorem C8_split_empty_separator_per_character str :
  sv_length str < npos →
  str ≠ [] →
  split_sv str [] 0 = Returns (map (λ c, [c]) str)
  ∧ split_sv (chars "abc") [] 0 = Returns [chars "a"; chars "b"; chars "c"].
Proof.
  intros Hlen _. split; [|by vm_compute]. rewrite split_sv_unbounded_correct by done.
  by rewrite all_fields_empty_sep, drop_trailing_empty_singletons.
Qed.

(** The last field of a source that does not end in the separator is not
    empty. *)
Lemma fields_upto_last_nonempty sep n : ∀ s,
  sep ≠ [] → s ≠ [] → ¬ sep `suffix_of` s →
  ∃ fields field, fields_upto n sep s = fields ++ [field] ∧ field ≠ [].
Proof.
  induction n as [|n IH]; intros s Hsep Hs Hsuf.
  { by exists [], s. }
  cbn [fields_upto].
  destruct (cut sep s) as [[field rest]|] eqn:E; [|by exists [], s].
  apply cut_Some in E as [-> _].
  destruct (IH rest) as (fields & g & -> & Hg); [done| | |].
  - intros ->. apply Hsuf. rewrite app_nil_r. by apply suffix_app_r.
  - intros Hr. apply Hsuf. by do 2 apply suffix_app_r.
  - by exists (field :: fields), g.
Qed.

Lemma join_char_join1 (fields : list (list char_t)) c :
  join_char fields c = join1 fields [c].
Proof.
  destruct fields as [|f fields]; [done|].
  unfold join_char, join1, basic_join. f_equal.
  destruct fields as [|g fields]; [done|].
  generalize (g :: fields). clear.
  induction l as [|x l IH]; [done|].
  cbn [basic_join_loop]. destruct l; [done|]. by rewrite IH.
Qed.

(** C5. Round trip: when the source (of fewer than [npos] characters, as
    every string view) does not end in the separator, joining the fields
    of the unbounded split with the separator gives the source back, for
    the literal and for the character overloads. *)
Theorem C5_join_split_round_trip str sep c :
  sv_length str < npos →
  (¬ sep `suffix_of` str →
   ∃ fields, split_sv str sep 0 = Returns fields ∧ join1 fields sep = str)
  ∧ (¬ [c] `suffix_of` str →
     ∃ fields,
       split_char str c 0 = Returns fields ∧ join_char fields c = str).
Proof.
  intros Hlen.
  assert (∀ sep', ¬ sep' `suffix_of` str →
          join1 (drop_trailing_empty (all_fields sep' str)) sep' = str)
    as Hround.
  { intros sep' Hsuf. destruct (decide (str = [])) as [->|Hne]; [done|].
    assert (sep' ≠ []) as Hsep by (intros ->; apply Hsuf, suffix_nil).
    destruct (fields_upto_last_nonempty sep' (length str) str)
      as (fields & field & E & Hfield); [done..|].
    unfold all_fields. rewrite E, drop_trailing_empty_id by done.
    rewrite <- E, join1_intercalate. apply intercalate_fields_upto. }
  split; intros Hsuf.
  - exists (drop_trailing_empty (all_fields sep str)).
    split; [by apply split_sv_unbounded_correct|by apply Hround].
  - exists (drop_trailing_empty (all_fields [c] str)).
    rewrite split_char_as_split_sv by done.
    split; [by apply split_sv_unbounded_correct|].
    rewrite join_char_join1. by apply Hround.
Qed.

(** With the empty separator the round trip holds for every source. *)
Lemma split_empty_separator_round_trip str :
  sv_length str < npos →
  ∃ fields, split_sv str [] 0 = Returns fields ∧ join1 fields [] = str.
Proof.
  intros Hlen. exists (drop_trailing_empty (all_fields [] str)).
  split; [by apply split_sv_unbounded_correct|].
  rewrite all_fields_empty_sep, drop_trailing_empty_singletons.
  rewrite join1_intercalate. clear. induction str as [|c [|d s] IH]; try done.
  rewrite map_cons, intercalate_cons by done. cbn [app]. by rewrite IH.
Qed.
End unbounded_mode.

Lemma C1_split_unbounded_drops_trailing_run_witness :
  sv_length (chars ",a,,b,,") < npos
  ∧ ∃ fields k,
      split_sv (chars ",a,,b,,") (chars ",") 0 = Returns fields
      ∧ all_fields (chars ",") (chars ",a,,b,,") = fields ++ replicate k []
      ∧ last fields ≠ Some [].
Proof.
  split; [reflexivity|].
  exact (proj1 (proj2 (C1_split_unbounded_drops_trailing_run
                         (chars ",a,,b,,") ","%char (chars ",") eq_refl))).
Defined.

Lemma C8_split_empty_separator_per_character_witness :
  sv_length (chars "abc") < npos
  ∧ chars "abc" ≠ []
  ∧ split_sv (chars "abc") [] 0
    = Returns (map (λ c, [c]) (chars "abc")).
Proof.
  split; [reflexivity|]. split; [discriminate|].
  apply (C8_split_empty_separator_per_character (chars "abc"));
    [reflexivity|discriminate].
Defined.

Lemma C5_join_split_round_trip_witness :
  sv_length (chars "a::b:c") < npos
  ∧ ¬ chars "::" `suffix_of` chars "a::b:c"
  ∧ ∃ fields,
      split_sv (chars "a::b:c") (chars "::") 0 = Returns fields
      ∧ join1 fields (chars "::") = chars "a::b:c".
Proof.
  assert (¬ chars "::" `suffix_of` chars "a::b:c") as Hsuf.
  { apply (bool_decide_unpack _). vm_compute. exact I. }
  split; [reflexivity|]. split; [exact Hsuf|].
  apply (C5_join_split_round_trip (chars "a::b:c") (chars "::") ":"%char);
    [reflexivity|exact Hsuf].
Defined.

(** ** Bounded mode *)

Section bounded_mode.
Context {char_t : Type} `{EqDecision char_t}.
Implicit Types (str s sep : list char_t) (c : char_t).

(** Bounded mode, character separator: [max_fields - 1] cuts, then the
    rest verbatim. *)
Lemma split_char_bounded_correct str c max_fields :
  sv_length str < npos →
  str ≠ [] →
  0 < max_fields <= size_t.max →
  split_char str c max_fields
  = Returns (fields_upto (Z.to_nat (max_fields - 1)) [c] str).
Proof.
  intros Hlen Hne Hmax. rewrite split_char_as_split_sv by done.
  by apply split_sv_bounded_correct.
Qed.

(** On a character or literal separator bounded mode returns at most
    [max_fields] fields, suppresses none of them, and joining them with the
    separator gives the source back. *)
Lemma split_sv_bounded_fields str sep max_fields :
  sv_length str < npos →
  0 < max_fields <= size_t.max →
  ∃ fields,
    split_sv str sep max_fields = Returns fields
    ∧ Z.of_nat (length fields) <= max_fields
    ∧ join1 fields sep = str.
Proof.
  intros Hlen Hmax. destruct (decide (str = [])) as [->|Hne].
  { exists []. repeat split; [simpl; lia]. }
  exists (fields_upto (Z.to_nat (max_fields - 1)) sep str).
  split; [by apply split_sv_bounded_correct|]. split.
  - pose proof (length_fields_upto (Z.to_nat (max_fields - 1)) sep str). lia.
  - rewrite join1_intercalate. apply intercalate_fields_upto.
Qed.

(** With [max_fields = 1] the only field is the source. *)
Lemma split_sv_one_field str sep :
  sv_length str < npos → str ≠ [] → split_sv str sep 1 = Returns [str].
Proof.
  intros Hlen Hne. by rewrite split_sv_bounded_correct.
Qed.
End bounded_mode.

(** ** The pattern overload at the end of the source *)

(** C3. On the source ["a,"], whose only separator ends the input, the
    character and literal overloads called with [max_fields = 2] append the
    empty final field, and so does every overload with [max_fields = 3];
    the pattern overload called with [max_fields = 2] does not: its test
    [result.size() < max_fields] on line 166 reads the decremented
    [max_fields].  Unbounded mode suppresses the field. *)
Theorem C3_pattern_overload_omits_final_empty_field :
  split_char (chars "a,") ","%char 3 = Returns [chars "a"; chars ""]
  ∧ split_sv (chars "a,") (chars ",") 3 = Returns [chars "a"; chars ""]
  ∧ split_regex (chars "a,") (regex_of_char ","%char) 3
    = Returns [chars "a"; chars ""]
  ∧ split_char (chars "a,") ","%char 2 = Returns [chars "a"; chars ""]
  ∧ split_sv (chars "a,") (chars ",") 2 = Returns [chars "a"; chars ""]
  ∧ split_regex (chars "a,") (regex_of_char ","%char) 2
    = Returns [chars "a"]
  ∧ split_char (chars "a,") ","%char 0 = Returns [chars "a"]
  ∧ split_regex (chars "a,") (regex_of_char ","%char) 0
    = Returns [chars "a"].
Proof. repeat split; by vm_compute. Qed.

(** C2. Bounded mode on the source ["a,b,"] with [max_fields = 3]: the
    reference splitter, the character overload and the literal overload
    return the three fields ["a"], ["b"] and [""]; the pattern overload
    returns two fields only, the empty final field is not emitted. *)
Theorem C2_pattern_overload_suppresses_final_field :
  fields_upto 2 (chars ",") (chars "a,b,") = [chars "a"; chars "b"; chars ""]
  ∧ split_char (chars "a,b,") ","%char 3
    = Returns [chars "a"; chars "b"; chars ""]
  ∧ split_sv (chars "a,b,") (chars ",") 3
    = Returns [chars "a"; chars "b"; chars ""]
  ∧ split_regex (chars "a,b,") (regex_of_char ","%char) 3
    = Returns [chars "a"; chars "b"]
  ∧ split_sv (chars "a,b,c") (chars ",") 2 = Returns [chars "a"; chars "b,c"]
  ∧ split_regex (chars "a,b,c") (regex_of_char ","%char) 2
    = Returns [chars "a"; chars "b,c"].
Proof. repeat split; by vm_compute. Qed.

(** C4. On the source ["abc"] and the pattern [$], whose leftmost match is
    the empty span at the end of the input, the first iteration of either
    loop of the pattern overload sets the cut [b] to offset 4, one past
    [cend = 3]: the field [a, b) is read past the end of the view and the
    exit test [a != str.cend()] is not met.  No field sequence is
    returned. *)
Theorem C4_pattern_zero_width_match_at_end_overruns :
  regex_search regex_end_of_input (chars "abc") = Some (3%nat, 0%nat)
  ∧ sv_length (chars "abc") = 3
  ∧ regex_cut (chars "abc") regex_end_of_input true 0 = (4, 0)
  ∧ split_regex (chars "abc") regex_end_of_input 0 = Undefined
  ∧ split_regex (chars "abc") regex_end_of_input 2 = Undefined
  ∧ ¬ returns (split_regex (chars "abc") regex_end_of_input 0).
Proof.
  repeat split; try by vm_compute.
  intros [fields E]. vm_compute in E. discriminate E.
Qed.

(** The character and literal overloads return on every source, separator
    and [max_fields]. *)
Lemma split_sv_returns {char_t} `{EqDecision char_t}
    (str sep : list char_t) (max_fields : Z) :
  sv_length str < npos →
  0 <= max_fields <= size_t.max →
  returns (split_sv str sep max_fields).
Proof.
  intros Hlen Hmax. destruct (decide (max_fields = 0)) as [->|Hne].
  - eexists. by apply split_sv_unbounded_correct.
  - destruct (split_sv_bounded_fields str sep max_fields)
      as (fields & E & _); [done|lia|]. by exists fields.
Qed.

Lemma split_char_returns {char_t} `{EqDecision char_t}
    (str : list char_t) (c : char_t) (max_fields : Z) :
  sv_length str < npos →
  0 <= max_fields <= size_t.max →
  returns (split_char str c max_fields).
Proof.
  intros Hlen Hmax. rewrite split_char_as_split_sv by done.
  by apply split_sv_returns.
Qed.

(** ** Patterns that never match the empty span at the end of the input

    For such a pattern the cut stays inside the source, the scan position
    advances at every iteration, and the pattern overload returns. *)

Section pattern_facts.
Context {char_t : Type} `{EqDecision char_t}.
Variable sep_re : basic_regex char_t.
Hypothesis no_empty_match_at_end : ∀ s p,
  s ≠ [] → regex_search sep_re s = Some (p, 0%nat) → (p < length s)%nat.

Lemma regex_cut_inside (str : list char_t) (allowed : bool) (a b sep_len : Z) :
  0 <= a < sv_length str →
  regex_cut str sep_re allowed a = (b, sep_len) →
  a <= b <= sv_length str ∧ 0 <= sep_len
  ∧ a < b + sep_len <= sv_length str.
Proof.
  intros Ha. unfold regex_cut.
  destruct allowed; [|intros [= <- <-]; lia].
  destruct (regex_search sep_re _) as [[p l]|] eqn:E;
    [|intros [= <- <-]; lia].
  pose proof (regex_search_fits sep_re _ _ _ E) as Hfits.
  rewrite length_drop in Hfits. unfold sv_length in *.
  destruct l as [|l].
  - apply no_empty_match_at_end in E.
    + rewrite length_drop in E. intros [= <- <-]. simpl. lia.
    + intros E'. apply (f_equal length) in E'.
      rewrite length_drop in E'. simpl in E'. lia.
  - destruct (Z.of_nat (S l) =? 0) eqn:El; [apply Z.eqb_eq in El; lia|].
    intros [= <- <-]. lia.
Qed.

Lemma split_regex_unbounded_returns (str : list char_t) fuel :
  ∀ a trailing_empty result,
  0 <= a < sv_length str →
  sv_length str - a <= Z.of_nat fuel →
  returns (split_regex_unbounded fuel str sep_re a trailing_empty result).
Proof.
  induction fuel as [|fuel IH]; intros a te result Ha Hfuel; [lia|].
  cbn [split_regex_unbounded].
  destruct (regex_cut str sep_re true a) as [b sep_len] eqn:Hcut.
  apply regex_cut_inside in Hcut as (Hb & Hl & Hadv); [|done].
  destruct (b + sep_len =? sv_length str) eqn:Hend; cbn [negb].
  - destruct (b =? a); [by eexists|].
    rewrite (proj2 (Z.ltb_ge _ _)) by lia. by eexists.
  - apply Z.eqb_neq in Hend.
    destruct (b =? a); [apply IH; lia|].
    rewrite (proj2 (Z.ltb_ge _ _)) by lia. apply IH; lia.
Qed.

Lemma split_regex_bounded_returns (str : list char_t) max_fields fuel :
  ∀ a result,
  0 <= a < sv_length str →
  sv_length str - a <= Z.of_nat fuel →
  size result <= max_fields →
  ∃ b result',
    split_regex_bounded fuel str sep_re max_fields a result
    = Returns (b, result')
    ∧ size result' <= max_fields + 1.
Proof.
  induction fuel as [|fuel IH]; intros a result Ha Hfuel Hsize; [lia|].
  cbn [split_regex_bounded].
  destruct (regex_cut str sep_re (size result <? max_fields) a)
    as [b sep_len] eqn:Hcut.
  pose proof (regex_cut_inside _ _ _ _ _ Ha Hcut) as (Hb & Hl & Hadv).
  rewrite (proj2 (Z.ltb_ge _ _)) by lia.
  destruct (b + sep_len =? sv_length str) eqn:Hend; cbn [negb].
  - eexists _, _. split; [done|]. rewrite size_snoc. lia.
  - apply Z.eqb_neq in Hend. apply IH; [lia..|].
    rewrite size_snoc.
    destruct (size result <? max_fields) eqn:Hlim.
    + apply Z.ltb_lt in Hlim. lia.
    + unfold regex_cut in Hcut. injection Hcut as <- <-. lia.
Qed.

(** The pattern overload returns, with at most [max_fields] fields in
    bounded mode. *)
Lemma split_regex_returns (str : list char_t) (max_fields : Z) :
  0 <= max_fields <= size_t.max →
  ∃ fields,
    split_regex str sep_re max_fields = Returns fields
    ∧ (0 < max_fields → size fields <= max_fields).
Proof.
  intros Hmax. unfold split_regex.
  destruct (sv_length str =? 0) eqn:E.
  { exists []. split; [done|]. unfold size. simpl. lia. }
  apply Z.eqb_neq in E. pose proof (sv_length_nonneg str).
  destruct (max_fields =? 0) eqn:Hm; cbn [negb].
  - apply Z.eqb_eq in Hm.
    destruct (split_regex_unbounded_returns str (fuel_for str) 0 0 [])
      as [fields Ef]; [lia|unfold fuel_for, sv_length; lia|].
    exists fields. split; [done|lia].
  - apply Z.eqb_neq in Hm. change size_t.max with npos in Hmax.
    rewrite wrap_small by lia.
    destruct (split_regex_bounded_returns str (max_fields - 1)
                (fuel_for str) 0 [])
      as (b & result & -> & Hsize);
      [lia|unfold fuel_for, sv_length; lia|unfold size; simpl; lia|].
    destruct (negb (b =? sv_length str) && (size result <? max_fields - 1))
      eqn:Hpost.
    + exists (result ++ [[]]). split; [done|]. intros _.
      apply andb_true_iff in Hpost as [_ Hlt%Z.ltb_lt].
      rewrite size_snoc. lia.
    + exists result. split; [done|]. lia.
Qed.
End pattern_facts.

(** A pattern compiled from one character never matches the empty span, so
    the pattern overload returns on it. *)
Lemma regex_of_char_returns {char_t} `{EqDecision char_t}
    (c : char_t) (str : list char_t) (max_fields : Z) :
  0 <= max_fields <= size_t.max →
  returns (split_regex str (regex_of_char c) max_fields).
Proof.
  intros Hmax.
  destruct (split_regex_returns (regex_of_char c)) with str max_fields
    as (fields & E & _); [|done|by exists fields].
  intros s p _. cbn [regex_search regex_of_char].
  by destruct (index_of c s).
Qed.

(** ** A separator at the end of the source, bounded against unbounded *)

Section final_empty_field.
Context {char_t : Type} `{EqDecision char_t}.
Implicit Types (str s sep : list char_t) (c : char_t).

Lemma all_fields_nonempty sep s : all_fields sep s ≠ [].
Proof. apply fields_upto_nonempty. Qed.

Lemma fields_upto_all sep n : ∀ s,
  (length (all_fields sep s) ≤ S n)%nat →
  fields_upto n sep s = all_fields sep s.
Proof.
  induction n as [|n IH]; intros s; rewrite all_fields_unfold;
    cbn [fields_upto];
    destruct (cut sep s) as [[field rest]|] eqn:E; try done.
  - pose proof (all_fields_nonempty sep rest).
    destruct (all_fields sep rest); [done|]. simpl. lia.
  - simpl. intros Hlen. f_equal. apply IH. lia.
Qed.

(** When [max_fields] does not cut the scan short, bounded mode on a
    character or literal separator returns every field, the empty fields
    after separators that end the source included; unbounded mode returns
    the same fields without that trailing run. *)
Lemma split_sv_bounded_keeps_trailing_empty str sep max_fields :
  sv_length str < npos →
  str ≠ [] →
  0 < max_fields <= size_t.max →
  Z.of_nat (length (all_fields sep str)) <= max_fields →
  split_sv str sep max_fields = Returns (all_fields sep str)
  ∧ split_sv str sep 0 = Returns (drop_trailing_empty (all_fields sep str)).
Proof.
  intros Hlen Hne Hmax Hall. split.
  - rewrite split_sv_bounded_correct by done.
    f_equal. apply fields_upto_all. lia.
  - by apply split_sv_unbounded_correct.
Qed.

Lemma split_char_bounded_keeps_trailing_empty str c max_fields :
  sv_length str < npos →
  str ≠ [] →
  0 < max_fields <= size_t.max →
  Z.of_nat (length (all_fields [c] str)) <= max_fields →
  split_char str c max_fields = Returns (all_fields [c] str)
  ∧ split_char str c 0
    = Returns (drop_trailing_empty (all_fields [c] str)).
Proof.
  intros Hlen Hne Hmax Hall. rewrite !split_char_as_split_sv by done.
  by apply split_sv_bounded_keeps_trailing_empty.
Qed.
End final_empty_field.

(** * Further properties of the splitter and the joiner *)

Section bounded_mode_further.
Context {char_t : Type} `{EqDecision char_t}.
Implicit Types (str s sep : list char_t) (c : char_t).

(** X1. Bounded mode on a literal or character separator (lines 62-68 and
    106-112) returns at most [max_fields] fields and loses nothing: joining
    the fields with the separator gives the source back, for every source,
    whether or not it ends in the separator, and for the empty separator
    too. *)
Theorem X1_bounded_split_round_trip str sep c max_fields :
  sv_length str < npos →
  0 < max_fields <= size_t.max →
  (∃ fields,
     split_sv str sep max_fields = Returns fields
     ∧ Z.of_nat (length fields) <= max_fields
     ∧ join1 fields sep = str)
  ∧ (∃ fields,
       split_char str c max_fields = Returns fields
       ∧ Z.of_nat (length fields) <= max_fields
       ∧ join_char fields c = str).
Proof.
  intros Hlen Hmax. split.
  - by apply split_sv_bounded_fields.
  - destruct (split_sv_bounded_fields str [c] max_fields)
      as (fields & E & Hn & Hj); [done..|].
    exists fields. rewrite split_char_as_split_sv by done.
    by rewrite join_char_join1.
Qed.

(** X2. With [max_fields = 1] every overload returns the non-empty source
    as the only field, whatever the separator: no search is made, also for
    a pattern. *)
Theorem X2_one_field_is_the_source str sep c (sep_re : basic_regex char_t) :
  sv_length str < npos →
  str ≠ [] →
  split_sv str sep 1 = Returns [str]
  ∧ split_char str c 1 = Returns [str]
  ∧ split_regex str sep_re 1 = Returns [str].
Proof.
  intros Hlen Hne. split; [by apply split_sv_one_field|]. split.
  - rewrite split_char_as_split_sv by done. by apply split_sv_one_field.
  - unfold split_regex.
    destruct (sv_length str =? 0) eqn:E.
    { apply Z.eqb_eq, sv_length_zero in E. done. }
    change (size_t.wrap (1 - 1)) with 0. cbn [Z.eqb negb].
    unfold fuel_for. cbn [split_regex_bounded].
    change (regex_cut str sep_re (size [] <? 0) 0) with (sv_length str, 0).
    cbv beta iota. rewrite Z.ltb_irrefl, Z.add_0_r, Z.eqb_refl.
    cbn [negb andb app]. rewrite Z.eqb_refl. cbn [negb andb].
    do 2 f_equal. unfold range. rewrite Z.sub_0_r. unfold sv_length.
    rewrite Nat2Z.id. simpl. by rewrite take_ge.
Qed.

Lemma fields_upto_empty_sep n : ∀ s,
  fields_upto n [] s = map (λ c, [c]) (take n s) ++ [drop n s].
Proof.
  induction n as [|n IH]; intros s; [done|].
  destruct s as [|c s]; [done|]. cbn [fields_upto cut]. by rewrite IH.
Qed.

(** X12. Bounded mode with the empty literal separator (lines 103-112):
    the first [max_fields - 1] characters are one field each and the last
    field is what remains of the source; when [max_fields] exceeds the
    length of the source that last field is empty. *)
Theorem X12_bounded_empty_separator str max_fields :
  sv_length str < npos →
  str ≠ [] →
  0 < max_fields <= size_t.max →
  split_sv str [] max_fields
  = Returns (map (λ c, [c]) (take (Z.to_nat (max_fields - 1)) str)
             ++ [drop (Z.to_nat (max_fields - 1)) str]).
Proof.
  intros Hlen Hne Hmax. rewrite split_sv_bounded_correct by done.
  by rewrite fields_upto_empty_sep.
Qed.

Lemma length_fields_upto_source n sep : ∀ s,
  (length (fields_upto n sep s) ≤ S (length s))%nat.
Proof.
  induction n as [|n IH]; intros s; simpl; [lia|].
  destruct (cut sep s) as [[field rest]|] eqn:E; simpl; [|lia].
  apply cut_Some in E as [_ Hlt]. specialize (IH rest). lia.
Qed.

Lemma length_drop_trailing_empty_fields n sep : ∀ s,
  (length (drop_trailing_empty (fields_upto n sep s)) ≤ length s)%nat.
Proof.
  assert (∀ s, (length (drop_trailing_empty [s]) ≤ length s)%nat) as Hone.
  { intros [|c s]; simpl; lia. }
  induction n as [|n IH]; intros s; cbn [fields_upto]; [apply Hone|].
  destruct (cut sep s) as [[field rest]|] eqn:E; [|apply Hone].
  apply cut_Some in E as [_ Hlt]. specialize (IH rest).
  cbn [drop_trailing_empty].
  destruct field, (drop_trailing_empty (fields_upto n sep rest));
    simpl in *; lia.
Qed.

(** X13. The number of fields is bounded by the source: unbounded mode
    returns at most one field per character of the source, bounded mode at
    most one more than that (and at most [max_fields]). *)
Theorem X13_field_count_bounded_by_source str sep max_fields :
  sv_length str < npos →
  0 <= max_fields <= size_t.max →
  ∃ fields,
    split_sv str sep max_fields = Returns fields
    ∧ (max_fields = 0 → (length fields ≤ length str)%nat)
    ∧ (0 < max_fields →
       (length fields ≤ S (length str))%nat
       ∧ Z.of_nat (length fields) <= max_fields).
Proof.
  intros Hlen Hmax. destruct (decide (max_fields = 0)) as [->|Hm].
  - exists (drop_trailing_empty (all_fields sep str)).
    split; [by apply split_sv_unbounded_correct|]. split; [|lia].
    intros _. apply length_drop_trailing_empty_fields.
  - destruct (decide (str = [])) as [->|Hne].
    { exists []. repeat split; simpl; lia. }
    exists (fields_upto (Z.to_nat (max_fields - 1)) sep str).
    split; [apply split_sv_bounded_correct; (done || lia)|].
    split; [lia|]. intros _. split.
    + apply length_fields_upto_source.
    + pose proof (length_fields_upto (Z.to_nat (max_fields - 1)) sep str).
      lia.
Qed.
End bounded_mode_further.

(** X3. For a pattern that never matches the empty span at the end of the
    range it is searched in, the pattern overload (lines 138-192) returns
    on every source, and in bounded mode with at most [max_fields]
    fields. *)
Theorem X3_pattern_split_returns_within_bound {char_t} `{EqDecision char_t}
    (sep_re : basic_regex char_t) (str : list char_t) (max_fields : Z) :
  (∀ s p, s ≠ [] → regex_search sep_re s = Some (p, 0%nat) →
          (p < length s)%nat) →
  0 <= max_fields <= size_t.max →
  ∃ fields,
    split_regex str sep_re max_fields = Returns fields
    ∧ (0 < max_fields → size fields <= max_fields).
Proof. intros Hre Hmax. by apply split_regex_returns. Qed.

Section unbounded_mode_further.
Context {char_t : Type} `{EqDecision char_t}.
Implicit Types (str s sep : list char_t) (c : char_t).

(** X4. When [max_fields] is at least the number of fields of the source,
    bounded mode on a literal or character separator returns every field,
    the empty ones that follow separators at the end of the source
    included; unbounded mode returns these fields less that trailing
    run. *)
Theorem X4_bounded_keeps_trailing_empty_fields str sep c max_fields :
  sv_length str < npos →
  str ≠ [] →
  0 < max_fields <= size_t.max →
  (Z.of_nat (length (all_fields sep str)) <= max_fields →
   split_sv str sep max_fields = Returns (all_fields sep str)
   ∧ split_sv str sep 0
     = Returns (drop_trailing_empty (all_fields sep str)))
  ∧ (Z.of_nat (length (all_fields [c] str)) <= max_fields →
     split_char str c max_fields = Returns (all_fields [c] str)
     ∧ split_char str c 0
       = Returns (drop_trailing_empty (all_fields [c] str))).
Proof.
  intros Hlen Hne Hmax. split; intros Hall.
  - by apply split_sv_bounded_keeps_trailing_empty.
  - by apply split_char_bounded_keeps_trailing_empty.
Qed.

Lemma no_occurrence_cut sep s :
  (∀ pre post, s ≠ pre ++ sep ++ post) → cut sep s = None.
Proof.
  intros Hno. destruct sep as [|x sep].
  { destruct (Hno [] s). done. }
  unfold cut. destruct (search (x :: sep) s) as [i|] eqn:E; [|done].
  apply search_Some in E. by destruct (Hno _ _ E).
Qed.

(** X5. A non-empty source in which the separator does not occur is
    returned as the single field, in unbounded and in bounded mode, by the
    literal and by the character overload. *)
Theorem X5_no_separator_single_field str sep c max_fields :
  sv_length str < npos →
  str ≠ [] →
  0 <= max_fields <= size_t.max →
  ((∀ pre post, str ≠ pre ++ sep ++ post) →
   split_sv str sep max_fields = Returns [str])
  ∧ (c ∉ str → split_char str c max_fields = Returns [str]).
Proof.
  intros Hlen Hne Hmax.
  assert (∀ sep', (∀ pre post, str ≠ pre ++ sep' ++ post) →
          split_sv str sep' max_fields = Returns [str]) as Hsv.
  { intros sep' Hno. apply no_occurrence_cut in Hno.
    destruct (decide (max_fields = 0)) as [->|Hm].
    - rewrite split_sv_unbounded_correct, all_fields_unfold, Hno by done.
      f_equal. by apply (drop_trailing_empty_id []).
    - rewrite split_sv_bounded_correct by (done || lia). f_equal.
      destruct (Z.to_nat (max_fields - 1)); [done|].
      cbn [fields_upto]. by rewrite Hno. }
  split; [apply Hsv|]. intros Hc.
  rewrite split_char_as_split_sv by done. apply Hsv.
  intros pre post ->. apply Hc.
  rewrite !elem_of_app, list_elem_of_singleton. auto.
Qed.

Lemma concat_separators sep k :
  concat (map (λ u, sep ++ u) (replicate k [])) = concat (replicate k sep).
Proof. induction k as [|k IH]; simpl; [done|]. by rewrite IH, app_nil_r. Qed.

(** X6. Unbounded mode on a literal separator loses nothing but
    separators: the source is the join of the returned fields followed by
    some number of copies of the separator. *)
Theorem X6_unbounded_split_loses_only_separators str sep :
  sv_length str < npos →
  ∃ fields k,
    split_sv str sep 0 = Returns fields
    ∧ str = join1 fields sep ++ concat (replicate k sep).
Proof.
  intros Hlen.
  destruct (drop_trailing_empty_spec (all_fields sep str)) as (k & E & _).
  pose proof (intercalate_fields_upto (length str) sep str) as Hstr.
  fold (all_fields sep str) in Hstr. rewrite E in Hstr.
  destruct (drop_trailing_empty (all_fields sep str)) as [|t ts] eqn:Ed.
  - destruct k as [|k].
    { by destruct (all_fields_nonempty sep str). }
    exists [], k. split; [by rewrite split_sv_unbounded_correct, Ed|].
    rewrite <- Hstr. cbn [app replicate].
    by rewrite intercalate_snoc, concat_separators.
  - exists (t :: ts), k.
    split; [by rewrite split_sv_unbounded_correct, Ed|].
    rewrite <- Hstr, join1_intercalate.
    change ((t :: ts) ++ replicate k []) with (t :: (ts ++ replicate k [])).
    rewrite !intercalate_snoc, map_app, concat_app, concat_separators.
    by rewrite app_assoc.
Qed.

Lemma all_fields_only_separators c n :
  all_fields [c] (replicate n c) = replicate (S n) [].
Proof.
  induction n as [|n IH]; [done|].
  rewrite all_fields_unfold. cbn [replicate]. unfold cut.
  cbn [search starts_with]. rewrite bool_decide_eq_true_2 by done.
  cbn [andb fmap option_fmap option_map take drop length Nat.add].
  by rewrite drop_0, IH.
Qed.

(** X14. A source made of separator characters only has no field in
    unbounded mode: every field is empty and all of them are dropped. *)
Theorem X14_only_separators_no_field c (n : nat) :
  Z.of_nat n < npos →
  split_char (replicate n c) c 0 = Returns [].
Proof.
  intros Hn.
  assert (sv_length (replicate n c) < npos) as Hlen
    by (unfold sv_length; by rewrite length_replicate).
  rewrite split_char_as_split_sv, split_sv_unbounded_correct by done.
  rewrite all_fields_only_separators.
  by rewrite (drop_trailing_empty_replicate (S n)).
Qed.
End unbounded_mode_further.

(** ** The character separator inside fields *)

Section separator_character.
Context {char_t : Type} `{EqDecision char_t}.
Implicit Types (str s field rest : list char_t) (c : char_t).
Implicit Types (fields : list (list char_t)).

Lemma index_of_None c s : index_of c s = None ↔ (c ∉ s).
Proof.
  induction s as [|x s IH]; simpl.
  - split; [intros _; apply not_elem_of_nil|done].
  - rewrite not_elem_of_cons. destruct (decide (x = c)) as [->|Hne].
    + split; [done|]. by intros [? _].
    + destruct (index_of c s); simpl.
      * split; [done|]. intros [_ Hc]. by apply IH in Hc.
      * split; [|done]. intros _. split; [congruence|]. by apply IH.
Qed.

Lemma index_of_Some c s i :
  index_of c s = Some i → (c ∉ take i s) ∧ s = take i s ++ c :: drop (S i) s.
Proof.
  revert i. induction s as [|x s IH]; intros i; simpl; [done|].
  destruct (decide (x = c)) as [->|Hne].
  - intros [= <-]. simpl. rewrite drop_0. split; [apply not_elem_of_nil|done].
  - destruct (index_of c s) as [k|]; simpl; [|done].
    intros [= <-]. destruct (IH k eq_refl) as [Hk Es]. simpl. split.
    + rewrite not_elem_of_cons. split; [congruence|done].
    + by rewrite <- Es.
Qed.

Lemma index_of_first c field rest :
  c ∉ field → index_of c (field ++ c :: rest) = Some (length field).
Proof.
  induction field as [|x field IH]; simpl; intros Hc.
  - by rewrite decide_True.
  - apply not_elem_of_cons in Hc as [Hx Hc].
    rewrite decide_False by congruence. by rewrite IH.
Qed.

Lemma cut_char_Some c s field rest :
  cut [c] s = Some (field, rest) → c ∉ field.
Proof.
  unfold cut. rewrite search_singleton.
  destruct (index_of c s) as [i|] eqn:E; [|done].
  intros [= <- <-]. by apply index_of_Some in E as [? _].
Qed.

Lemma cut_char_None c s : (cut [c] s = None) ↔ (c ∉ s).
Proof.
  unfold cut. rewrite search_singleton, <- index_of_None.
  by destruct (index_of c s).
Qed.

Lemma cut_char_first c field rest :
  c ∉ field → cut [c] (field ++ c :: rest) = Some (field, rest).
Proof.
  intros Hc. unfold cut. rewrite search_singleton, index_of_first by done.
  cbn [fmap option_fmap option_map length]. do 2 f_equal.
  - by rewrite take_app_length.
  - rewrite Nat.add_1_r, (cons_middle c field rest), app_assoc.
    rewrite drop_app_length'; [done|]. rewrite length_app. simpl. lia.
Qed.

Lemma fields_upto_char_all_but_last c n : ∀ s (i : nat) field,
  fields_upto n [c] s !! i = Some field →
  (S i < length (fields_upto n [c] s))%nat →
  c ∉ field.
Proof.
  induction n as [|n IH]; intros s i field; cbn [fields_upto].
  { destruct i; simpl; [lia|done]. }
  destruct (cut [c] s) as [[f rest]|] eqn:E.
  - destruct i as [|i]; simpl.
    + intros [= <-] _. by apply cut_char_Some in E.
    + intros Hi Hlen. apply (IH rest i); [done|lia].
  - destruct i; simpl; [lia|done].
Qed.

Lemma fields_upto_char_all c n : ∀ s,
  (length s ≤ n)%nat → Forall (λ field, c ∉ field) (fields_upto n [c] s).
Proof.
  induction n as [|n IH]; intros s Hn.
  { destruct s; [|simpl in Hn; lia]. repeat constructor.
    apply not_elem_of_nil. }
  cbn [fields_upto]. destruct (cut [c] s) as [[f rest]|] eqn:E.
  - constructor; [by apply cut_char_Some in E|].
    apply IH. apply cut_Some in E as [_ Hlt]. lia.
  - repeat constructor. by apply cut_char_None.
Qed.

(** X7. The fields returned by the character overload do not contain the
    separator: none of them in unbounded mode, none but possibly the last
    one in bounded mode. *)
Theorem X7_fields_exclude_separator str c max_fields :
  sv_length str < npos →
  0 <= max_fields <= size_t.max →
  ∃ fields,
    split_char str c max_fields = Returns fields
    ∧ (max_fields = 0 → Forall (λ field, c ∉ field) fields)
    ∧ (0 < max_fields → ∀ (i : nat) field,
         fields !! i = Some field → (S i < length fields)%nat → c ∉ field).
Proof.
  intros Hlen Hmax. rewrite split_char_as_split_sv by done.
  destruct (decide (max_fields = 0)) as [->|Hm].
  - exists (drop_trailing_empty (all_fields [c] str)).
    split; [by apply split_sv_unbounded_correct|]. split; [|lia].
    intros _.
    destruct (drop_trailing_empty_spec (all_fields [c] str)) as (k & E & _).
    pose proof (fields_upto_char_all c (length str) str (le_n _)) as Hall.
    fold (all_fields [c] str) in Hall. rewrite E in Hall.
    by apply Forall_app in Hall as [? _].
  - destruct (decide (str = [])) as [->|Hne].
    { exists []. repeat split; [lia|]. intros _ i field Hi. done. }
    exists (fields_upto (Z.to_nat (max_fields - 1)) [c] str).
    split; [apply split_sv_bounded_correct; (done || lia)|].
    split; [lia|]. intros _ i field. apply fields_upto_char_all_but_last.
Qed.

Lemma all_fields_intercalate c fields :
  fields ≠ [] →
  Forall (λ field, c ∉ field) fields →
  all_fields [c] (intercalate [c] fields) = fields.
Proof.
  induction fields as [|f fields IH]; [done|]. intros _ Hall.
  apply Forall_cons in Hall as [Hf Hall].
  destruct fields as [|g fields].
  - cbn [intercalate]. rewrite all_fields_unfold.
    by rewrite (proj2 (cut_char_None c f)).
  - rewrite intercalate_cons by done.
    rewrite all_fields_unfold. cbn [app].
    rewrite cut_char_first by done. by rewrite IH.
Qed.

Lemma drop_trailing_empty_last fields :
  last fields ≠ Some [] → drop_trailing_empty fields = fields.
Proof.
  destruct fields as [|f fields _] using rev_ind; [done|].
  rewrite last_snoc. intros Hf. apply drop_trailing_empty_id. congruence.
Qed.

(** X10. Splitting undoes joining: when no field contains the separator
    character and the last field is not empty, the unbounded split of the
    join of the fields is these fields. *)
Theorem X10_split_of_join_unbounded fields c :
  Forall (λ field, c ∉ field) fields →
  last fields ≠ Some [] →
  sv_length (join_char fields c) < npos →
  split_char (join_char fields c) c 0 = Returns fields.
Proof.
  intros Hall Hlast Hlen. rewrite split_char_as_split_sv by done.
  rewrite split_sv_unbounded_correct by done.
  destruct (decide (fields = [])) as [->|Hne]; [done|].
  rewrite join_char_join1, join1_intercalate.
  rewrite all_fields_intercalate by done.
  by rewrite drop_trailing_empty_last.
Qed.

(** X11. In bounded mode too: when no field contains the separator
    character, the join is not empty and [max_fields] is at least the number
    of fields, the split of the join is the fields, empty last fields
    included. *)
Theorem X11_split_of_join_bounded fields c max_fields :
  Forall (λ field, c ∉ field) fields →
  join_char fields c ≠ [] →
  sv_length (join_char fields c) < npos →
  Z.of_nat (length fields) <= max_fields <= size_t.max →
  split_char (join_char fields c) c max_fields = Returns fields.
Proof.
  intros Hall Hne Hlen Hmax.
  assert (fields ≠ []) as Hfields by (by intros ->).
  assert (0 < max_fields) by (destruct fields; [done|simpl in Hmax; lia]).
  rewrite split_char_as_split_sv by done.
  rewrite split_sv_bounded_correct by (done || lia). f_equal.
  rewrite join_char_join1, join1_intercalate.
  transitivity (all_fields [c] (intercalate [c] fields));
    [|by apply all_fields_intercalate].
  apply fields_upto_all. rewrite all_fields_intercalate by done. lia.
Qed.
End separator_character.

(** ** The pattern overload on a one-character pattern *)

Section pattern_of_char.
Context {char_t : Type} `{EqDecision char_t}.
Implicit Types (str s : list char_t) (c : char_t).

Lemma index_of_Some_lt c s i : index_of c s = Some i → (i < length s)%nat.
Proof.
  intros E. apply index_of_Some in E as [_ E].
  apply (f_equal length) in E. rewrite length_app, length_take in E.
  simpl in E. lia.
Qed.

(** In unbounded mode the two loops take the same steps. *)
Lemma split_regex_unbounded_of_char str c fuel :
  ∀ a trailing_empty result,
  sv_length str < npos →
  0 <= a < sv_length str →
  split_regex_unbounded fuel str (regex_of_char c) a trailing_empty result
  = split_char_unbounded fuel str c a trailing_empty result.
Proof.
  induction fuel as [|fuel IH]; intros a te result Hlen Ha; [done|].
  pose proof npos_value as Hnpos.
  cbn [split_regex_unbounded split_char_unbounded].
  unfold regex_cut, find_char. cbn [regex_search regex_of_char].
  rewrite (proj2 (Z.ltb_lt a (sv_length str))) by lia.
  assert (length (drop (Z.to_nat a) str) = Z.to_nat (sv_length str - a))
    as Hdrop by (rewrite length_drop; unfold sv_length; lia).
  destruct (index_of c (drop (Z.to_nat a) str)) as [i|] eqn:E;
    cbn [fmap option_fmap option_map].
  - apply index_of_Some_lt in E. rewrite Hdrop in E.
    change (Z.of_nat 1 =? 0) with false. cbv beta iota.
    change (Z.of_nat 1) with 1. rewrite Z.add_0_r. unwrap.
    assert (negb (a + Z.of_nat i + 1 =? sv_length str)
            = negb (a + Z.of_nat i =? npos)
              && (a + Z.of_nat i + 1 <? sv_length str)) as ->.
    { destruct (Z.eqb_spec (a + Z.of_nat i + 1) (sv_length str)),
        (Z.eqb_spec (a + Z.of_nat i) npos),
        (Z.ltb_spec (a + Z.of_nat i + 1) (sv_length str)); simpl; lia. }
    assert (substr str a (a + Z.of_nat i - a)
            = Some (range str a (a + Z.of_nat i))) as ->.
    { unfold substr, range. rewrite (proj2 (Z.ltb_ge _ _)) by lia.
      do 3 f_equal. lia. }
    rewrite (proj2 (Z.ltb_ge (sv_length str) (a + Z.of_nat i))) by lia.
    destruct (a + Z.of_nat i =? a);
      destruct (_ && _) eqn:Hc; try done;
      apply andb_true_iff in Hc as [_ Hc%Z.ltb_lt]; apply IH; lia.
  - cbv beta iota. rewrite Z.add_0_r. unwrap.
    rewrite (proj2 (Z.eqb_neq (sv_length str) a)) by lia.
    rewrite (proj2 (Z.eqb_neq npos a)) by lia.
    rewrite Z.ltb_irrefl, !Z.eqb_refl. cbn [negb andb].
    assert (substr str a (npos - a) = Some (range str a (sv_length str)))
      as ->; [|done].
    unfold substr, range. rewrite (proj2 (Z.ltb_ge _ _)) by lia.
    do 3 f_equal. lia.
Qed.

(** X8. In unbounded mode the pattern overload, given a pattern whose
    matches are the occurrences of one character, returns what the
    character overload returns for that character. *)
Theorem X8_pattern_of_char_agrees_unbounded str c :
  sv_length str < npos →
  split_regex str (regex_of_char c) 0 = split_char str c 0.
Proof.
  intros Hlen. unfold split_regex, split_char.
  destruct (sv_length str =? 0) eqn:E; [done|]. apply Z.eqb_neq in E.
  cbn [Z.eqb negb]. apply split_regex_unbounded_of_char; [done|].
  pose proof (sv_length_nonneg str). lia.
Qed.
End pattern_of_char.

(** ** Joining a concatenation *)

Lemma join_snoc {char_t} (e1 : list char_t) (first : list (list char_t))
    (e_last joiner last_joiner : list char_t) :
  join (e1 :: first ++ [e_last]) joiner last_joiner
  = e1 ++ concat (map (λ e, joiner ++ e) first) ++ last_joiner ++ e_last.
Proof.
  unfold join, basic_join.
  destruct (first ++ [e_last]) as [|x rest] eqn:E.
  { destruct first; discriminate. }
  rewrite <- E, basic_join_loop_snoc. reflexivity.
Qed.

(** X9. [join] composes: the join of a concatenation, whose second part
    has two elements or more, is the join of the first part with the
    ordinary joiner alone, then the ordinary joiner, then the join of the
    second part; the last joiner appears once, before the last element. *)
Theorem X9_join_of_concatenation {char_t} (e1 : list char_t)
    (part1 : list (list char_t)) (x : list char_t)
    (middle : list (list char_t)) (e_last joiner last_joiner : list char_t) :
  join ((e1 :: part1) ++ x :: middle ++ [e_last]) joiner last_joiner
  = join1 (e1 :: part1) joiner ++ joiner
      ++ join (x :: middle ++ [e_last]) joiner last_joiner.
Proof.
  replace ((e1 :: part1) ++ x :: middle ++ [e_last])
    with (e1 :: (part1 ++ x :: middle) ++ [e_last])
    by (simpl; by rewrite <- app_assoc).
  rewrite !join_snoc, join1_intercalate, intercalate_snoc.
  rewrite map_app, concat_app. simpl. by rewrite <- !app_assoc.
Qed.

(** ** The literal separator inside fields *)

Section separator_literal.
Context {char_t : Type} `{EqDecision char_t}.
Implicit Types (str s sep needle field rest : list char_t) (c : char_t).

Lemma search_None needle s :
  search needle s = None → ∀ pre post, s ≠ pre ++ needle ++ post.
Proof.
  induction s as [|y s IH]; simpl.
  - destruct (starts_with needle []) eqn:E; [done|]. intros _ pre post Hs.
    symmetry in Hs. apply app_eq_nil in Hs as [_ [-> _]%app_eq_nil].
    done.
  - destruct (starts_with needle (y :: s)) eqn:E; [done|].
    destruct (search needle s) eqn:Es; [done|]. intros _ pre post Hs.
    destruct pre as [|y' pre].
    + assert (starts_with needle (y :: s) = true) as E'
        by (apply starts_with_prefix; by exists post).
      congruence.
    + injection Hs as _ Hs. by apply (IH eq_refl pre post).
Qed.

(** [search] finds the leftmost occurrence: the needle does not occur in
    what precedes it. *)
Lemma search_leftmost needle s : ∀ i,
  needle ≠ [] →
  search needle s = Some i →
  ∀ pre post, take i s ≠ pre ++ needle ++ post.
Proof.
  assert (∀ pre post, [] ≠ pre ++ needle ++ post ∨ needle = []) as Hnil.
  { intros pre post. destruct needle; [by right|left].
    by destruct pre. }
  induction s as [|y s IH]; intros i Hne; simpl.
  - intros _ pre post. rewrite take_nil. by destruct (Hnil pre post).
  - destruct (starts_with needle (y :: s)) eqn:E.
    { intros [= <-] pre post. simpl. by destruct (Hnil pre post). }
    destruct (search needle s) as [k|] eqn:Es; [|done].
    intros [= <-] pre post Hs. simpl in Hs.
    destruct pre as [|y' pre].
    + assert (starts_with needle (y :: s) = true) as E'.
      { apply starts_with_prefix. exists (post ++ drop k s).
        rewrite <- (take_drop k s) at 1.
        rewrite app_comm_cons, Hs. simpl. by rewrite <- !app_assoc. }
      congruence.
    + injection Hs as _ Hs. by apply (IH k Hne eq_refl pre post).
Qed.

Lemma fields_upto_literal_all sep n : ∀ s,
  sep ≠ [] →
  (length s ≤ n)%nat →
  Forall (λ field, ∀ pre post, field ≠ pre ++ sep ++ post)
    (fields_upto n sep s).
Proof.
  induction n as [|n IH]; intros s Hsep Hn.
  { destruct s; [|simpl in Hn; lia]. repeat constructor.
    intros pre post Hs. symmetry in Hs.
    apply app_eq_nil in Hs as [_ [? _]%app_eq_nil]. done. }
  cbn [fields_upto].
  destruct sep as [|x sep]; [done|]. unfold cut.
  destruct (search (x :: sep) s) as [i|] eqn:E;
    cbn [fmap option_fmap option_map].
  - constructor; [by apply search_leftmost|].
    apply IH; [done|]. rewrite length_drop. simpl. lia.
  - repeat constructor. by apply search_None.
Qed.

(** X15. In unbounded mode with a non-empty literal separator, the
    separator occurs in none of the fields returned. *)
Theorem X15_fields_exclude_literal_separator str sep :
  sv_length str < npos →
  sep ≠ [] →
  ∃ fields,
    split_sv str sep 0 = Returns fields
    ∧ Forall (λ field, ∀ pre post, field ≠ pre ++ sep ++ post) fields.
Proof.
  intros Hlen Hsep. exists (drop_trailing_empty (all_fields sep str)).
  split; [by apply split_sv_unbounded_correct|].
  destruct (drop_trailing_empty_spec (all_fields sep str)) as (k & E & _).
  pose proof (fields_upto_literal_all sep (length str) str Hsep (le_n _))
    as Hall.
  fold (all_fields sep str) in Hall. rewrite E in Hall.
  by apply Forall_app in Hall as [? _].
Qed.

Lemma fields_upto_S n sep s :
  fields_upto (S n) sep s
  = match cut sep s with
    | None => [s]
    | Some (field, rest) => field :: fields_upto n sep rest
    end.
Proof. reflexivity. Qed.

Lemma fields_upto_char_snoc c n : ∀ s,
  (length s ≤ n)%nat →
  fields_upto (S n) [c] (s ++ [c]) = fields_upto n [c] s ++ [[]].
Proof.
  induction n as [|n IH]; intros s Hn.
  { destruct s; [|simpl in Hn; lia]. cbn [app fields_upto].
    rewrite (cut_char_first c [] []) by apply not_elem_of_nil. done. }
  rewrite (fields_upto_S (S n)), (fields_upto_S n).
  destruct (cut [c] s) as [[field rest]|] eqn:E.
  - pose proof (cut_char_Some _ _ _ _ E) as Hfield.
    apply cut_Some in E as [-> Hlt]. rewrite <- !app_assoc.
    cbn [app]. rewrite cut_char_first by done.
    rewrite IH by lia. done.
  - apply cut_char_None in E. rewrite cut_char_first by done.
    rewrite fields_upto_S. by rewrite cut_nil.
Qed.

(** X17. In unbounded mode a separator character at the end of the
    source changes nothing: the source followed by the separator splits
    into the same fields as the source. *)
Theorem X17_trailing_separator_ignored str c :
  sv_length (str ++ [c]) < npos →
  split_char (str ++ [c]) c 0 = split_char str c 0.
Proof.
  intros Hlen.
  assert (sv_length str < npos) as Hlen'.
  { rewrite sv_length_app, sv_length_cons, sv_length_nil in Hlen. lia. }
  rewrite !split_char_as_split_sv, !split_sv_unbounded_correct by done.
  f_equal. unfold all_fields. rewrite length_app, Nat.add_1_r.
  rewrite fields_upto_char_snoc by done.
  by apply drop_trailing_empty_app_nil.
Qed.
End separator_literal.

(** ** The pattern overload in unbounded mode, any pattern *)

Section pattern_unbounded.
Context {char_t : Type} `{EqDecision char_t}.
Variable sep_re : basic_regex char_t.
Implicit Types (str : list char_t) (result fields : list (list char_t)).

Lemma regex_cut_facts str (allowed : bool) (a b sep_len : Z) :
  0 <= a < sv_length str →
  regex_cut str sep_re allowed a = (b, sep_len) →
  a <= b ∧ 0 <= sep_len ∧ a < b + sep_len
  ∧ (b <= sv_length str → b + sep_len <= sv_length str)
  ∧ (b = a → b + sep_len <= sv_length str).
Proof.
  intros Ha. unfold regex_cut.
  destruct allowed; [|intros [= <- <-]; lia].
  destruct (regex_search sep_re _) as [[p l]|] eqn:E;
    [|intros [= <- <-]; lia].
  pose proof (regex_search_fits sep_re _ _ _ E) as Hfits.
  rewrite length_drop in Hfits. unfold sv_length in *.
  destruct (Z.of_nat l =? 0) eqn:El.
  - apply Z.eqb_eq in El. intros [= <- <-]. lia.
  - apply Z.eqb_neq in El. intros [= <- <-]. lia.
Qed.

Lemma range_nonempty str (a b : Z) :
  0 <= a < b → b <= sv_length str → range str a b ≠ [].
Proof.
  intros Ha Hb E. apply (f_equal length) in E. unfold range in E.
  rewrite length_take, length_drop in E. unfold sv_length in Hb.
  simpl in E. lia.
Qed.

Lemma split_regex_unbounded_last str fuel :
  ∀ a trailing_empty result fields,
  0 <= a < sv_length str →
  last result ≠ Some [] →
  split_regex_unbounded fuel str sep_re a trailing_empty result
  = Returns fields →
  last fields ≠ Some [].
Proof.
  induction fuel as [|fuel IH]; intros a te result fields Ha Hlast; [done|].
  cbn [split_regex_unbounded].
  destruct (regex_cut str sep_re true a) as [b sep_len] eqn:Hcut.
  apply regex_cut_facts in Hcut as (Hab & Hl & Hadv & Hin & Heq); [|done].
  destruct (b =? a) eqn:Hba.
  - apply Z.eqb_eq in Hba. specialize (Heq Hba).
    destruct (b + sep_len =? sv_length str) eqn:Hend; cbn [negb].
    + by intros [= <-].
    + apply Z.eqb_neq in Hend. apply IH; [lia|done].
  - apply Z.eqb_neq in Hba.
    destruct (sv_length str <? b) eqn:Hover; [done|].
    apply Z.ltb_ge in Hover. specialize (Hin Hover).
    assert (last (flush te result ++ [range str a b])
            ≠ Some []) as Hlast'.
    { rewrite last_snoc. intros [= E]. revert E.
      apply range_nonempty; lia. }
    clear Hlast.
    destruct (b + sep_len =? sv_length str) eqn:Hend; cbn [negb].
    + by intros [= <-].
    + apply Z.eqb_neq in Hend. apply IH; [lia|done].
Qed.

Lemma split_regex_unbounded_mode_last str fields :
  split_regex str sep_re 0 = Returns fields →
  last fields ≠ Some [].
Proof.
  unfold split_regex. destruct (sv_length str =? 0) eqn:E.
  { by intros [= <-]. }
  apply Z.eqb_neq in E. cbn [Z.eqb negb].
  apply split_regex_unbounded_last; [|done].
  pose proof (sv_length_nonneg str). lia.
Qed.

(** X16. Whatever the pattern, the fields the pattern overload returns in
    unbounded mode do not end with an empty field: buffered empty fields
    are written only in front of a non-empty one. *)
Theorem X16_pattern_unbounded_no_trailing_empty str fields :
  split_regex str sep_re 0 = Returns fields →
  last fields ≠ Some [].
Proof. apply split_regex_unbounded_mode_last. Qed.
End pattern_unbounded.

(** ** The default separator *)

Section pattern_fields.
Context {char_t : Type} `{EqDecision char_t}.
Variable sep_re : basic_regex char_t.
Variable P : list char_t → Prop.
Hypothesis P_nil : P [].
Hypothesis match_after_P : ∀ s p l,
  regex_search sep_re s = Some (p, l) → l ≠ 0%nat ∧ P (take p s).
Hypothesis no_match_P : ∀ s, regex_search sep_re s = None → P s.

(** When matches are not empty and what precedes the leftmost match (all
    of the range when there is none) satisfies [P], the unbounded loop
    returns fields that satisfy [P]. *)
Lemma split_regex_unbounded_fields (str : list char_t) fuel :
  ∀ a trailing_empty result,
  0 <= a < sv_length str →
  sv_length str - a <= Z.of_nat fuel →
  Forall P result →
  ∃ fields,
    split_regex_unbounded fuel str sep_re a trailing_empty result
    = Returns fields
    ∧ Forall P fields.
Proof.
  induction fuel as [|fuel IH]; intros a te result Ha Hfuel Hres; [lia|].
  assert (Forall P (flush te result)) as Hflush.
  { unfold flush. apply Forall_app. split; [done|].
    by apply Forall_replicate. }
  cbn [split_regex_unbounded]. unfold regex_cut.
  destruct (regex_search sep_re (drop (Z.to_nat a) str)) as [[p l]|] eqn:E.
  - destruct (match_after_P _ _ _ E) as [Hl HP].
    pose proof (regex_search_fits sep_re _ _ _ E) as Hfits.
    rewrite length_drop in Hfits. unfold sv_length in *.
    rewrite (proj2 (Z.eqb_neq (Z.of_nat l) 0)) by lia.
    rewrite Z.add_0_r.
    assert (range str a (a + Z.of_nat p)
            = take p (drop (Z.to_nat a) str)) as Hrange.
    { unfold range. f_equal. lia. }
    destruct (a + Z.of_nat p =? a);
      [|rewrite (proj2 (Z.ltb_ge _ _)) by lia];
      (destruct (a + Z.of_nat p + Z.of_nat l =? Z.of_nat (length str))
         eqn:Hend; cbn [negb];
       [ eexists; split; [done|]
       | apply Z.eqb_neq in Hend; apply IH; [lia|lia|] ]);
      try done; apply Forall_app; (split; [done|]);
      rewrite Hrange; by repeat constructor.
  - rewrite Z.add_0_r, Z.eqb_refl, Z.ltb_irrefl. cbn [negb].
    rewrite (proj2 (Z.eqb_neq (sv_length str) a)) by lia.
    eexists. split; [done|]. apply Forall_app. split; [done|].
    repeat constructor. apply no_match_P in E.
    unfold range. rewrite take_ge; [done|].
    rewrite length_drop. unfold sv_length. lia.
Qed.
End pattern_fields.

Section default_separator.
Context {char_t : Type} `{EqDecision char_t}.
Variable isspace : char_t → bool.
Implicit Types (str s : list char_t).

Lemma find_if_Some s : ∀ i,
  find_if isspace s = Some i →
  Forall (λ ch, isspace ch = false) (take i s)
  ∧ run_length isspace (drop i s) ≠ 0%nat.
Proof.
  induction s as [|x s IH]; intros i; simpl; [done|].
  destruct (isspace x) eqn:Ex.
  - intros [= <-]. simpl. by rewrite Ex.
  - destruct (find_if isspace s) as [k|]; simpl; [|done].
    intros [= <-]. destruct (IH k eq_refl) as [Hk Hrun]. simpl.
    split; [by constructor|done].
Qed.

Lemma find_if_None s :
  find_if isspace s = None → Forall (λ ch, isspace ch = false) s.
Proof.
  induction s as [|x s IH]; simpl; [by constructor|].
  destruct (isspace x) eqn:Ex; [done|].
  destruct (find_if isspace s); simpl; [done|].
  intros _. constructor; [done|by apply IH].
Qed.

(** X18. The overloads without a separator (lines 200-302), in unbounded
    mode, return on every source; no field returned contains a whitespace
    character and the last one is not empty. *)
Theorem X18_default_split_fields_without_whitespace str :
  ∃ fields,
    split_default (regex_whitespace isspace) str 0 = Returns fields
    ∧ Forall (Forall (λ ch, isspace ch = false)) fields
    ∧ last fields ≠ Some [].
Proof.
  assert (∃ fields,
            split_default (regex_whitespace isspace) str 0 = Returns fields
            ∧ Forall (Forall (λ ch, isspace ch = false)) fields)
    as (fields & E & Hall).
  { unfold split_default, split_regex.
    destruct (sv_length str =? 0) eqn:E0; [by exists []|].
    apply Z.eqb_neq in E0. pose proof (sv_length_nonneg str).
    cbn [Z.eqb negb]. apply split_regex_unbounded_fields.
    - by constructor.
    - intros s p l. cbn [regex_search regex_whitespace].
      destruct (find_if isspace s) as [i|] eqn:Ei; [|done].
      intros [= <- <-]. apply find_if_Some in Ei as [? ?]. done.
    - intros s. cbn [regex_search regex_whitespace].
      destruct (find_if isspace s) as [i|] eqn:Ei; [done|].
      intros _. by apply find_if_None.
    - lia.
    - unfold fuel_for, sv_length. lia.
    - constructor. }
  exists fields. split; [done|]. split; [done|].
  by apply (split_regex_unbounded_mode_last (regex_whitespace isspace) str).
Qed.
End default_separator.

(** X19. The overloads without a separator return on every source and
    every [max_fields], in bounded mode with at most [max_fields] fields. *)
Theorem X19_default_split_returns_within_bound {char_t} `{EqDecision char_t}
    (isspace : char_t → bool) (str : list char_t) (max_fields : Z) :
  0 <= max_fields <= size_t.max →
  ∃ fields,
    split_default (regex_whitespace isspace) str max_fields = Returns fields
    ∧ (0 < max_fields → size fields <= max_fields).
Proof.
  intros Hmax. apply split_regex_returns; [|done].
  intros s p _. cbn [regex_search regex_whitespace].
  destruct (find_if isspace s) as [i|] eqn:E; [|done].
  intros [= <- Hrun]. by apply find_if_Some in E as [_ ?].
Qed.

(** ** Instances *)

(** Closes a comparison between integer constants. *)
Ltac constants := vm_compute; (reflexivity || discriminate).

Lemma X1_bounded_split_round_trip_witness :
  sv_length (chars "a,b,") < npos
  ∧ 0 < 2 <= size_t.max
  ∧ ∃ fields,
      split_sv (chars "a,b,") (chars ",") 2 = Returns fields
      ∧ Z.of_nat (length fields) <= 2
      ∧ join1 fields (chars ",") = chars "a,b,".
Proof.
  assert (0 < 2 <= size_t.max) as Hmax by (split; constants).
  split; [constants|]. split; [exact Hmax|].
  exact (proj1 (X1_bounded_split_round_trip (chars "a,b,") (chars ",")
                  ","%char 2 eq_refl Hmax)).
Defined.

Lemma X2_one_field_is_the_source_witness :
  sv_length (chars "a,b") < npos
  ∧ chars "a,b" ≠ []
  ∧ split_sv (chars "a,b") (chars ",") 1 = Returns [chars "a,b"]
  ∧ split_char (chars "a,b") ","%char 1 = Returns [chars "a,b"]
  ∧ split_regex (chars "a,b") regex_end_of_input 1 = Returns [chars "a,b"].
Proof.
  split; [constants|]. split; [discriminate|].
  assert (chars "a,b" ≠ []) as Hne by discriminate.
  exact (X2_one_field_is_the_source (chars "a,b") (chars ",") ","%char
           regex_end_of_input eq_refl Hne).
Defined.

Lemma X3_pattern_split_returns_within_bound_witness :
  (∀ s p, s ≠ [] →
          regex_search (regex_of_char ","%char) s = Some (p, 0%nat) →
          (p < length s)%nat)
  ∧ 0 <= 2 <= size_t.max
  ∧ ∃ fields,
      split_regex (chars "a,b,c") (regex_of_char ","%char) 2 = Returns fields
      ∧ (0 < 2 → size fields <= 2).
Proof.
  assert (∀ s p, s ≠ [] →
            regex_search (regex_of_char ","%char) s = Some (p, 0%nat) →
            (p < length s)%nat) as Hre.
  { intros s p _. simpl. destruct (index_of ","%char s); discriminate. }
  assert (0 <= 2 <= size_t.max) as Hmax by (split; constants).
  split; [exact Hre|]. split; [exact Hmax|].
  exact (X3_pattern_split_returns_within_bound (regex_of_char ","%char)
           (chars "a,b,c") 2 Hre Hmax).
Defined.

Lemma X4_bounded_keeps_trailing_empty_fields_witness :
  sv_length (chars "a,,") < npos
  ∧ chars "a,," ≠ []
  ∧ 0 < 5 <= size_t.max
  ∧ Z.of_nat (length (all_fields (chars ",") (chars "a,,"))) <= 5
  ∧ Z.of_nat (length (all_fields [","%char] (chars "a,,"))) <= 5
  ∧ (split_sv (chars "a,,") (chars ",") 5
     = Returns (all_fields (chars ",") (chars "a,,"))
     ∧ split_sv (chars "a,,") (chars ",") 0
       = Returns (drop_trailing_empty (all_fields (chars ",") (chars "a,,"))))
  ∧ (split_char (chars "a,,") ","%char 5
     = Returns (all_fields [","%char] (chars "a,,"))
     ∧ split_char (chars "a,,") ","%char 0
       = Returns
           (drop_trailing_empty (all_fields [","%char] (chars "a,,")))).
Proof.
  assert (0 < 5 <= size_t.max) as Hmax by (split; constants).
  assert (Z.of_nat (length (all_fields (chars ",") (chars "a,,"))) <= 5)
    as Hall by constants.
  assert (Z.of_nat (length (all_fields [","%char] (chars "a,,"))) <= 5)
    as Hall' by constants.
  assert (chars "a,," ≠ []) as Hne by discriminate.
  split; [constants|]. split; [exact Hne|]. split; [exact Hmax|].
  split; [exact Hall|]. split; [exact Hall'|].
  pose proof (X4_bounded_keeps_trailing_empty_fields (chars "a,,")
                (chars ",") ","%char 5 eq_refl Hne Hmax) as [H1 H2].
  exact (conj (H1 Hall) (H2 Hall')).
Defined.

Lemma X5_no_separator_single_field_witness :
  sv_length (chars "abc") < npos
  ∧ chars "abc" ≠ []
  ∧ 0 <= 3 <= size_t.max
  ∧ (∀ pre post, chars "abc" ≠ pre ++ chars "bb" ++ post)
  ∧ ((","%char) ∉ chars "abc")
  ∧ split_sv (chars "abc") (chars "bb") 3 = Returns [chars "abc"]
  ∧ split_char (chars "abc") ","%char 3 = Returns [chars "abc"].
Proof.
  assert (0 <= 3 <= size_t.max) as Hmax by (split; constants).
  assert (∀ pre post, chars "abc" ≠ pre ++ chars "bb" ++ post) as Hno.
  { intros pre post E.
    destruct pre as [|? [|? [|? [|? pre]]]]; discriminate E. }
  assert ((","%char) ∉ chars "abc") as Hc.
  { apply (bool_decide_unpack _). vm_compute. exact I. }
  assert (chars "abc" ≠ []) as Hne by discriminate.
  split; [constants|]. split; [exact Hne|]. split; [exact Hmax|].
  split; [exact Hno|]. split; [exact Hc|].
  pose proof (X5_no_separator_single_field (chars "abc") (chars "bb")
                ","%char 3 eq_refl Hne Hmax) as [H1 H2].
  exact (conj (H1 Hno) (H2 Hc)).
Defined.

Lemma X6_unbounded_split_loses_only_separators_witness :
  sv_length (chars "a::b::::") < npos
  ∧ ∃ fields k,
      split_sv (chars "a::b::::") (chars "::") 0 = Returns fields
      ∧ chars "a::b::::"
        = join1 fields (chars "::") ++ concat (replicate k (chars "::")).
Proof.
  split; [constants|].
  exact (X6_unbounded_split_loses_only_separators (chars "a::b::::")
           (chars "::") eq_refl).
Defined.

Lemma X7_fields_exclude_separator_witness :
  sv_length (chars "a,b,,c") < npos
  ∧ 0 <= 2 <= size_t.max
  ∧ ∃ fields,
      split_char (chars "a,b,,c") ","%char 2 = Returns fields
      ∧ (2 = 0 → Forall (λ field, (","%char) ∉ field) fields)
      ∧ (0 < 2 → ∀ (i : nat) field,
           fields !! i = Some field → (S i < length fields)%nat →
           (","%char) ∉ field).
Proof.
  assert (0 <= 2 <= size_t.max) as Hmax by (split; constants).
  split; [constants|]. split; [exact Hmax|].
  exact (X7_fields_exclude_separator (chars "a,b,,c") ","%char 2
           eq_refl Hmax).
Defined.

Lemma X8_pattern_of_char_agrees_unbounded_witness :
  sv_length (chars ",a,,b,") < npos
  ∧ split_regex (chars ",a,,b,") (regex_of_char ","%char) 0
    = split_char (chars ",a,,b,") ","%char 0.
Proof.
  split; [constants|].
  exact (X8_pattern_of_char_agrees_unbounded (chars ",a,,b,") ","%char
           eq_refl).
Defined.

Lemma X10_split_of_join_unbounded_witness :
  Forall (λ field, (","%char) ∉ field) [chars ""; chars "ab"; chars ""; chars "c"]
  ∧ last [chars ""; chars "ab"; chars ""; chars "c"] ≠ Some []
  ∧ sv_length (join_char [chars ""; chars "ab"; chars ""; chars "c"] ","%char)
    < npos
  ∧ split_char (join_char [chars ""; chars "ab"; chars ""; chars "c"] ","%char)
      ","%char 0
    = Returns [chars ""; chars "ab"; chars ""; chars "c"].
Proof.
  assert (Forall (λ field, (","%char) ∉ field)
            [chars ""; chars "ab"; chars ""; chars "c"]) as Hall.
  { apply (bool_decide_unpack _). vm_compute. exact I. }
  assert (last [chars ""; chars "ab"; chars ""; chars "c"] ≠ Some [])
    as Hlast by discriminate.
  split; [exact Hall|]. split; [exact Hlast|]. split; [constants|].
  exact (X10_split_of_join_unbounded
           [chars ""; chars "ab"; chars ""; chars "c"] ","%char
           Hall Hlast eq_refl).
Defined.

Lemma X11_split_of_join_bounded_witness :
  Forall (λ field, (","%char) ∉ field) [chars "a"; chars ""; chars ""]
  ∧ join_char [chars "a"; chars ""; chars ""] ","%char ≠ []
  ∧ sv_length (join_char [chars "a"; chars ""; chars ""] ","%char) < npos
  ∧ Z.of_nat (length [chars "a"; chars ""; chars ""]) <= 3 <= size_t.max
  ∧ split_char (join_char [chars "a"; chars ""; chars ""] ","%char) ","%char 3
    = Returns [chars "a"; chars ""; chars ""].
Proof.
  assert (Forall (λ field, (","%char) ∉ field) [chars "a"; chars ""; chars ""])
    as Hall.
  { apply (bool_decide_unpack _). vm_compute. exact I. }
  assert (join_char [chars "a"; chars ""; chars ""] ","%char ≠ []) as Hne
    by discriminate.
  assert (Z.of_nat (length [chars "a"; chars ""; chars ""]) <= 3
          <= size_t.max) as Hmax by (split; constants).
  split; [exact Hall|]. split; [exact Hne|]. split; [constants|].
  split; [exact Hmax|].
  exact (X11_split_of_join_bounded [chars "a"; chars ""; chars ""] ","%char 3
           Hall Hne eq_refl Hmax).
Defined.

Lemma X12_bounded_empty_separator_witness :
  sv_length (chars "abc") < npos
  ∧ chars "abc" ≠ []
  ∧ 0 < 10 <= size_t.max
  ∧ split_sv (chars "abc") [] 10
    = Returns (map (λ c, [c]) (take (Z.to_nat (10 - 1)) (chars "abc"))
               ++ [drop (Z.to_nat (10 - 1)) (chars "abc")]).
Proof.
  assert (chars "abc" ≠ []) as Hne by discriminate.
  assert (0 < 10 <= size_t.max) as Hmax by (split; constants).
  split; [constants|]. split; [exact Hne|]. split; [exact Hmax|].
  exact (X12_bounded_empty_separator (chars "abc") 10 eq_refl Hne Hmax).
Defined.

Lemma X13_field_count_bounded_by_source_witness :
  sv_length (chars ",") < npos
  ∧ 0 <= 5 <= size_t.max
  ∧ ∃ fields,
      split_sv (chars ",") (chars ",") 5 = Returns fields
      ∧ (5 = 0 → (length fields ≤ length (chars ","))%nat)
      ∧ (0 < 5 →
         (length fields ≤ S (length (chars ",")))%nat
         ∧ Z.of_nat (length fields) <= 5).
Proof.
  assert (0 <= 5 <= size_t.max) as Hmax by (split; constants).
  split; [constants|]. split; [exact Hmax|].
  exact (X13_field_count_bounded_by_source (chars ",") (chars ",") 5
           eq_refl Hmax).
Defined.

Lemma X14_only_separators_no_field_witness :
  Z.of_nat 4 < npos
  ∧ split_char (replicate 4 ","%char) ","%char 0 = Returns [].
Proof.
  split; [constants|].
  exact (X14_only_separators_no_field ","%char 4 eq_refl).
Defined.

Lemma X15_fields_exclude_literal_separator_witness :
  sv_length (chars "a::b:::c") < npos
  ∧ chars "::" ≠ []
  ∧ ∃ fields,
      split_sv (chars "a::b:::c") (chars "::") 0 = Returns fields
      ∧ Forall (λ field, ∀ pre post, field ≠ pre ++ chars "::" ++ post)
          fields.
Proof.
  assert (chars "::" ≠ []) as Hsep by discriminate.
  split; [constants|]. split; [exact Hsep|].
  exact (X15_fields_exclude_literal_separator (chars "a::b:::c") (chars "::")
           eq_refl Hsep).
Defined.

Lemma X16_pattern_unbounded_no_trailing_empty_witness :
  split_regex (chars "a,b,,") (regex_of_char ","%char) 0
  = Returns [chars "a"; chars "b"]
  ∧ last [chars "a"; chars "b"] ≠ Some [].
Proof.
  assert (split_regex (chars "a,b,,") (regex_of_char ","%char) 0
          = Returns [chars "a"; chars "b"]) as E by (by vm_compute).
  split; [exact E|].
  exact (X16_pattern_unbounded_no_trailing_empty (regex_of_char ","%char)
           (chars "a,b,,") [chars "a"; chars "b"] E).
Defined.

Lemma X17_trailing_separator_ignored_witness :
  sv_length (chars "a,,b" ++ [","%char]) < npos
  ∧ split_char (chars "a,,b" ++ [","%char]) ","%char 0
    = split_char (chars "a,,b") ","%char 0.
Proof.
  split; [constants|].
  exact (X17_trailing_separator_ignored (chars "a,,b") ","%char eq_refl).
Defined.

Lemma X19_default_split_returns_within_bound_witness :
  0 <= 2 <= size_t.max
  ∧ ∃ fields,
      split_default (regex_whitespace (λ ch, bool_decide (ch = " "%char)))
        (chars "a  b c") 2 = Returns fields
      ∧ (0 < 2 → size fields <= 2).
Proof.
  assert (0 <= 2 <= size_t.max) as Hmax by (split; constants).
  split; [exact Hmax|].
  exact (X19_default_split_returns_within_bound
           (λ ch, bool_decide (ch = " "%char)) (chars "a  b c") 2 Hmax).
Defined.
